(** * fetch-h2: the fetch execution engine (HTTP/1 path)

    A shallow embedding of [src/lib/utils.ts], [src/lib/fetch-common.ts] and
    [src/lib/fetch-http1.ts]: header assembly, the deadline / cancellation
    coordinator, and the redirect driver, with the properties the
    specification states about them.

    Conventions.
    - JavaScript strings are [string]; numbers that the code only adds and
      compares (clock readings, timeouts, status codes, body lengths) are [Z].
    - A JavaScript object used as a dictionary is a [gmap string _].
    - [undefined] / [null] are [None].
    - A [throw] (or a rejected promise) is the [Throw] case of [Completion].
    - Mutable objects shared along a redirect chain (the cookie jar, the
      cancellation signal's [onabort] slot, the host's timers) live in one
      [World] value that is threaded through every call.
    - What the outside world does (clock readings, whether the signal is
      aborted, which participant of the race settles first and with what) is
      read from a script, one [Hop] per attempt.
    - The [headers] of a response are filed from its header lines the way
      Node's http module files them. *)

From Stdlib Require Import ZArith Lia Ascii.
From stdpp Require Import base strings list gmap pretty.

(* ===================================================================== *)
(** * Constants of Node's [http2] module used by the sources *)
(* ===================================================================== *)

Definition HTTP2_HEADER_METHOD : string := ":method".
Definition HTTP2_HEADER_SCHEME : string := ":scheme".
Definition HTTP2_HEADER_PATH : string := ":path".
Definition HTTP2_HEADER_AUTHORITY : string := ":authority".
Definition HTTP2_METHOD_GET : string := "GET".
Definition HTTP2_METHOD_HEAD : string := "HEAD".
Definition HTTP2_HEADER_USER_AGENT : string := "user-agent".
Definition HTTP2_HEADER_ACCEPT : string := "accept".
Definition HTTP2_HEADER_COOKIE : string := "cookie".
Definition HTTP2_HEADER_CONTENT_TYPE : string := "content-type".
Definition HTTP2_HEADER_CONTENT_LENGTH : string := "content-length".
Definition HTTP2_HEADER_ACCEPT_ENCODING : string := "accept-encoding".
Definition HTTP1_HEADER_LOCATION : string := "location".
Definition HTTP1_HEADER_SET_COOKIE : string := "set-cookie".

(* ===================================================================== *)
(** * Errors and completions *)
(* ===================================================================== *)

(** The class of a thrown value: [TimeoutError] and [AbortError] are the
    two subclasses of [./core]; everything else is a plain [Error], except
    the [TypeError] that [new URL] throws. *)
Inductive ErrorKind := TimeoutError | AbortError | TypeError | PlainError.

(** The values the engine throws or rejects with.  Message texts are not
    modelled; the structured context they carry is. *)
Inductive FetchError :=
  | ERedirectionLoop (urls : list string)
      (* Error("Redirection loop detected"), with [err.urls] *)
  | EInvalidUrl
      (* TypeError of [new URL( ... )] *)
  | EDeadline
      (* [timeoutError()] of setupFetch *)
  | ESignalAborted
      (* [abortError()] of setupFetch *)
  | ERequestAborted
      (* [makeAbortedError()] *)
  | ERequestTimeout
      (* [makeTimeoutError()] *)
  | E100Continue
      (* [make100Error()] *)
  | EUpgrade
      (* Error("Upgrade not implemented!") *)
  | ETransport (e : string)
      (* whatever the request's "error" event carries *)
  | EIllegalRedirect
      (* [makeIllegalRedirectError()] *)
  | ERedirection (location : option string)
      (* [makeRedirectionError( location )] *)
  | ERedirectionMethod (location : option string) (method : string).
      (* [makeRedirectionMethodError( location, method )] *)

Definition errorKind (e : FetchError) : ErrorKind :=
  match e with
  | EDeadline | ERequestTimeout => TimeoutError
  | ESignalAborted | ERequestAborted => AbortError
  | EInvalidUrl => TypeError
  | _ => PlainError
  end.

Definition make100Error : FetchError := E100Continue.
Definition makeAbortedError : FetchError := ERequestAborted.
Definition makeTimeoutError : FetchError := ERequestTimeout.
Definition makeIllegalRedirectError : FetchError := EIllegalRedirect.
Definition makeRedirectionError (location : option string) : FetchError :=
  ERedirection location.
Definition makeRedirectionMethodError
    (location : option string) (method : string) : FetchError :=
  ERedirectionMethod location method.

Inductive Completion (A : Type) :=
  | Normal (a : A)
  | Throw (e : FetchError).
Arguments Normal {A} a.
Arguments Throw {A} e.

(* ===================================================================== *)
(** * utils.ts *)
(* ===================================================================== *)

(** A header value as Node hands it over: a string, or an array of
    strings. *)
Inductive HeaderValue :=
  | HStr (s : string)
  | HArr (l : list string).

(** [arrayify]: [null]/[undefined] give the empty array, an array is
    returned as it is, anything else is wrapped. *)
Definition arrayify (value : option HeaderValue) : list string :=
  match value with
  | None => []
  | Some (HArr l) => l
  | Some (HStr s) => [s]
  end.

(** JavaScript truthiness of such a value: only [undefined] and the empty
    string are falsy; every array is truthy. *)
Definition truthy (value : option HeaderValue) : bool :=
  match value with
  | None => false
  | Some (HStr s) => negb (bool_decide (s = ""))
  | Some (HArr _) => true
  end.

(** Truthiness of a [string | null]. *)
Definition truthyStr (value : option string) : bool :=
  match value with
  | None => false
  | Some s => negb (bool_decide (s = ""))
  end.

(** Truthiness of a [number | undefined]: [0] is falsy. *)
Definition truthyNum (value : option Z) : bool :=
  match value with
  | None => false
  | Some z => negb (bool_decide (z = 0%Z))
  end.

(** The parts of a parsed URL that setupFetch reads. *)
Record UrlParts := {
  origin : string;
  protocol : string;
  pathname : string;
  search : string;
  hash : string;
}.

(** Node's WHATWG [URL] class, which is not part of the repository:
    [parseUrl u] is [new URL( u )] and [resolveUrl l base] is
    [new URL( l, base ).href]; [None] stands for the [TypeError] the
    constructor throws on input it cannot parse. *)
Class UrlLib := {
  parseUrl : string → option UrlParts;
  resolveUrl : string → string → option string;
}.

Section Utils.
Context `{UrlLib}.

(** [parseLocation]: anything but a string gives [null]; a string is
    resolved against [origin]. *)
Definition parseLocation (location : option HeaderValue) (origin : string)
    : Completion (option string) :=
  match location with
  | Some (HStr l) =>
      match resolveUrl l origin with
      | Some href => Normal (Some href)
      | None => Throw EInvalidUrl
      end
  | _ => Normal None
  end.

End Utils.

(* ===================================================================== *)
(** * utils.ts: the GOAWAY mark on a session *)
(* ===================================================================== *)

(** A JavaScript value as far as [!!] can tell values apart (numbers are
    the integers). *)
Inductive JsValue :=
  | JsUndefined
  | JsNull
  | JsBoolean (b : bool)
  | JsNumber (z : Z)
  | JsString (s : string)
  | JsObject.

(** [!!value] *)
Definition toBoolean (value : JsValue) : bool :=
  match value with
  | JsUndefined | JsNull => false
  | JsBoolean b => b
  | JsNumber z => negb (bool_decide (z = 0%Z))
  | JsString s => negb (bool_decide (s = ""))
  | JsObject => true
  end.

(** The properties of a [ClientHttp2Session] object, by name; a property
    that is not there reads as [undefined]. *)
Definition property (session : gmap string JsValue) (key : string) : JsValue :=
  default JsUndefined (session !! key).

Definition hasGotGoaway (session : gmap string JsValue) : bool :=
  toBoolean (property session "__fetch_h2_goaway").

Definition setGotGoaway (session : gmap string JsValue)
    : gmap string JsValue :=
  <["__fetch_h2_goaway" := JsBoolean true]> session.

(* ===================================================================== *)
(** * fetch-common.ts: the redirection-loop check *)
(* ===================================================================== *)

(** [Array.prototype.pop] on a copy: the last element (if any) and the
    array without it. *)
Definition pop (urls : list string) : option string * list string :=
  (last urls, removelast urls).

(** The [for] loop of [ensureNotCircularRedirection]: the first position
    [i] with [urls[ i ] === last] gives [urls.slice( i )]. *)
Fixpoint scanFrom (lst : option string) (urls : list string)
    : option (list string) :=
  match urls with
  | [] => None
  | u :: rest =>
      if bool_decide (Some u = lst) then Some (u :: rest)
      else scanFrom lst rest
  end.

Definition ensureNotCircularRedirection (redirections : list string)
    : Completion unit :=
  let '(lst, urls) := pop redirections in
  match scanFrom lst urls with
  | Some sub => Throw (ERedirectionLoop sub)
  | None => Normal tt
  end.

(* ===================================================================== *)
(** * The collaborators of setupFetch *)
(* ===================================================================== *)

(** Modelled from the spec: the [Headers] container of [./headers] is not
    among the sources.  The spec calls it a header multimap; the engine only
    uses [has], [get] and [entries], where [entries] yields each name once
    with its value as [get] reports it.  The model is that list of entries. *)
Definition Headers := list (string * string).

Fixpoint get (headers : Headers) (name : string) : option string :=
  match headers with
  | [] => None
  | (key, val) :: rest =>
      if bool_decide (key = name) then Some val else get rest name
  end.

Definition has (headers : Headers) (name : string) : bool :=
  match get headers name with Some _ => true | None => false end.

Definition entries (headers : Headers) : list (string * string) := headers.

Inductive RedirectTypes := follow | error | manual.

#[global] Instance RedirectTypes_eq_dec : EqDecision RedirectTypes.
Proof. solve_decision. Defined.

(** Modelled from the spec: the [Request] of [./request] and the
    [BodyInspector] of [./body] are not among the sources.  A request is an
    immutable description (URL, method, headers, redirect policy, integrity);
    [bodyLength] and [bodyMime] are what the body inspector reports for its
    body ([length: number|null], [mime: string|null]). *)
Record Request := {
  url : string;
  method : string;
  headers : Headers;
  redirect : RedirectTypes;
  integrity : option string;
  bodyLength : option Z;
  bodyMime : option string;
}.

(** Modelled from the spec: [request.clone( newURL )] preserves headers and
    body policy and rebinds the target. *)
Definition clone (request : Request) (location : string) : Request :=
  {| url := location;
     method := method request;
     headers := headers request;
     redirect := redirect request;
     integrity := integrity request;
     bodyLength := bodyLength request;
     bodyMime := bodyMime request |}.

Record Decoder := { name : string }.

Inductive HttpProtocols := http1 | http2.

#[global] Instance HttpProtocols_eq_dec : EqDecision HttpProtocols.
Proof. solve_decision. Defined.

(** The immutable part of a session: what [session.protocol],
    [session.accept( )], [session.userAgent( )] and
    [session.contentDecoders( )] give.  The session's cookie jar is mutable
    and lives in the [World]. *)
Record SimpleSession := {
  sessionProtocol : HttpProtocols;
  accept : string;
  userAgent : string;
  contentDecoders : list Decoder;
}.

(** The cookie jar capability of the session.  [getCookies jar url] is the
    list [( await jar.getCookies( url ) ).map( c => c.cookieString( ) )];
    [setCookies cookies url jar] is the jar after
    [jar.setCookies( cookies, url )]. *)
Class CookieJar (J : Type) := {
  getCookies : J → string → list string;
  setCookies : list string → string → J → J;
}.

(** The part of [FetchInit] the engine reads.  [signal] and [onTrailers] say
    whether the caller supplied one; the signal object itself is shared by
    all attempts of a chain and lives in the [World] and the script. *)
Record FetchInit := {
  signal : bool;
  onTrailers : bool;
  timeout : option Z;
}.

Record FetchExtra := {
  redirected : list string;
  timeoutAt : option Z;
}.

(* ===================================================================== *)
(** * fetch-common.ts: header assembly (lines 76-148 of setupFetch) *)
(* ===================================================================== *)

Definition isEndStream (method : string) : bool :=
  bool_decide (method = HTTP2_METHOD_GET) || bool_decide (method = HTTP2_METHOD_HEAD).

Definition acceptEncoding (contentDecoders : list Decoder) : string :=
  if bool_decide (length contentDecoders = 0)
  then "gzip;q=1.0, deflate;q=0.5"
  else String.concat ", "
         (map (λ decoder, name decoder +:+ ";q=1.0") contentDecoders)
       +:+ ", gzip;q=0.8, deflate;q=0.5".

(** The cookie array after line 105: the jar's cookies, then what the
    request's own [cookie] header holds. *)
Definition cookieList (jarCookies : list string) (headers : Headers)
    : list string :=
  if has headers HTTP2_HEADER_COOKIE
  then jarCookies ++ arrayify (HStr <$> get headers HTTP2_HEADER_COOKIE)
  else jarCookies.

(** [protocol.replace( /:.*/, "" )]: the text before the first colon (a
    URL's protocol holds no line break, which is all [.] would stop at). *)
Fixpoint stripFromColon (s : string) : string :=
  match s with
  | EmptyString => EmptyString
  | String c rest =>
      if Ascii.eqb c ":"%char then EmptyString else String c (stripFromColon rest)
  end.

(** The object literal of lines 107-119. *)
Definition initialHeaders (session : SimpleSession) (method : string)
    (parts : UrlParts) (acceptEnc : string) : gmap string string :=
  let required : gmap string string :=
    match sessionProtocol session with
    | http1 => ∅
    | http2 =>
        <[HTTP2_HEADER_PATH := pathname parts +:+ search parts +:+ hash parts]>
        (<[HTTP2_HEADER_SCHEME := stripFromColon (protocol parts)]>
        (<[HTTP2_HEADER_METHOD := method]> ∅))
    end in
  <[HTTP2_HEADER_ACCEPT_ENCODING := acceptEnc]>
  (<[HTTP2_HEADER_USER_AGENT := userAgent session]>
  (<[HTTP2_HEADER_ACCEPT := accept session]> required)).

(** Lines 121-122. *)
Definition withCookies (cookies : list string)
    (headersToSend : gmap string string) : gmap string string :=
  if bool_decide (0 < length cookies)
  then <[HTTP2_HEADER_COOKIE := String.concat "; " cookies]> headersToSend
  else headersToSend.

(** [object[ key ] = value] with a string for value, on an object made by
    an object literal.  The name [__proto__] is the accessor such an object
    inherits from [Object.prototype]; its setter ignores a value that is
    neither an object nor null, so the assignment makes no property.  Every
    other name becomes a property of the object itself. *)
Definition assign {V : Type} (key : string) (val : V)
    (object : gmap string V) : gmap string V :=
  if bool_decide (key = "__proto__") then object
  else <[key := val]> object.

(** One turn of the loop of lines 124-132. *)
Definition copyHeader (session : SimpleSession)
    (headersToSend : gmap string string) (entry : string * string)
    : gmap string string :=
  let '(key, val) := entry in
  if bool_decide (key = "host") && bool_decide (sessionProtocol session = http2)
  then <[HTTP2_HEADER_AUTHORITY := val]> headersToSend
  else if negb (bool_decide (key = HTTP2_HEADER_COOKIE))
  then assign key val headersToSend
  else headersToSend.

Definition copyHeaders (session : SimpleSession) (headers : Headers)
    (headersToSend : gmap string string) : gmap string string :=
  foldl (copyHeader session) headersToSend (entries headers).

(** Lines 134-148: content-length and content-type inferred from the body. *)
Definition withBodyFraming (request : Request) (endStream : bool)
    (headersToSend : gmap string string) : gmap string string :=
  let withLength :=
    if negb endStream
       && bool_decide (is_Some (bodyLength request))
       && negb (has (headers request) HTTP2_HEADER_CONTENT_LENGTH)
    then match bodyLength request with
         | Some len => <[HTTP2_HEADER_CONTENT_LENGTH := pretty len]> headersToSend
         | None => headersToSend
         end
    else headersToSend in
  if negb endStream
     && negb (has (headers request) "content-type")
     && truthyStr (bodyMime request)
  then match bodyMime request with
       | Some mime => <[HTTP2_HEADER_CONTENT_TYPE := mime]> withLength
       | None => withLength
       end
  else withLength.

(** The whole of header assembly: [headersToSend] as setupFetch returns it,
    from the session, the request, its parsed URL and the cookies the jar
    holds for the URL. *)
Definition assembleHeaders (session : SimpleSession) (request : Request)
    (parts : UrlParts) (jarCookies : list string) : gmap string string :=
  let endStream := isEndStream (method request) in
  let cookies := cookieList jarCookies (headers request) in
  withBodyFraming request endStream
    (copyHeaders session (headers request)
      (withCookies cookies
        (initialHeaders session (method request) parts
          (acceptEncoding (contentDecoders session))))).

(* ===================================================================== *)
(** * The world: cookie jar, timers, the signal's listener slot *)
(* ===================================================================== *)

Inductive TimerStatus := Armed | Cleared | Fired.

(** What the engine does to the outside, in the order it does it. *)
Inductive Effect :=
  | TimerArmed (id : nat) (delay : Z)
      (* [setTimeout( ..., timeoutAt - now )] *)
  | ListenerAttached
      (* [signal.onabort = ...] *)
  | Sent (url : string) (headersToSend : gmap string string)
      (* [doFetch]: [session.get( url )], the headers, the body *)
  | RaceStarted (participants : nat)
      (* [Promise.race( [ ... ].filter( promise => promise ) )] *)
  | TimerCancelled (id : nat)
      (* [clearTimeout] on a timer that was still pending *)
  | ListenerDetached.
      (* [delete signal.onabort] when the slot was filled *)

(** Modelled from the spec: the table [isRedirectStatus] that
    [fetch-http1.ts] imports from [./utils] is not in the [utils.ts] at hand.
    The spec calls a redirect status a status code of the 3xx class that
    conventionally carries a location header; the engine is parametric in
    the table. *)
Class RedirectStatusTable := { isRedirectStatus : Z → bool }.

Section Engine.
Context `{UrlLib} `{RedirectStatusTable} {J : Type} `{CookieJar J}.

Record World := {
  jar : J;
  timers : list TimerStatus;
  onabort : bool;
  effects : list Effect;
}.

Definition setJar (j : J) (w : World) : World :=
  {| jar := j; timers := timers w; onabort := onabort w; effects := effects w |}.

Definition addEffect (e : Effect) (w : World) : World :=
  {| jar := jar w; timers := timers w; onabort := onabort w;
     effects := effects w ++ [e] |}.

(** Node's [setTimeout]: a fresh pending timer. *)
Definition setTimeout (delay : Z) (w : World) : nat * World :=
  let id := length (timers w) in
  (id, {| jar := jar w; timers := timers w ++ [Armed]; onabort := onabort w;
          effects := effects w ++ [TimerArmed id delay] |}).

(** Node's [clearTimeout]: cancels a pending timer; on a timer that has
    fired or was cancelled before it does nothing. *)
Definition clearTimeout (id : nat) (w : World) : World :=
  match timers w !! id with
  | Some Armed =>
      {| jar := jar w; timers := <[id := Cleared]> (timers w);
         onabort := onabort w; effects := effects w ++ [TimerCancelled id] |}
  | _ => w
  end.

(** The timer's callback is run by the host. *)
Definition fireTimer (id : nat) (w : World) : World :=
  {| jar := jar w; timers := <[id := Fired]> (timers w);
     onabort := onabort w; effects := effects w |}.

(** [signal.onabort = ...] *)
Definition attachListener (w : World) : World :=
  {| jar := jar w; timers := timers w; onabort := true;
     effects := effects w ++ [ListenerAttached] |}.

(** [delete signal.onabort] *)
Definition detachListener (w : World) : World :=
  if onabort w
  then {| jar := jar w; timers := timers w; onabort := false;
          effects := effects w ++ [ListenerDetached] |}
  else w.

(* ===================================================================== *)
(** * The script: what the outside does during one attempt *)
(* ===================================================================== *)

(** [String.prototype.toLowerCase] on the letters a header name is made
    of. *)
Definition lowerLetter (c : ascii) : ascii :=
  let n := nat_of_ascii c in
  if (65 <=? n)%nat && (n <=? 90)%nat then ascii_of_nat (n + 32) else c.

Fixpoint toLowerCase (s : string) : string :=
  match s with
  | EmptyString => EmptyString
  | String c rest => String (lowerLetter c) (toLowerCase rest)
  end.

(** The fields of which Node keeps the first line and drops every later
    one. *)
Definition keepsFirst : list string :=
  ["age"; "authorization"; "content-length"; "content-type"; "etag";
   "expires"; "from"; "host"; "if-modified-since"; "if-unmodified-since";
   "last-modified"; "location"; "max-forwards"; "proxy-authorization";
   "referer"; "retry-after"; "server"; "user-agent"].

(** How Node's http module files one header line of a message under
    [headers] ([_addHeaderLine]): the name in lower case; set-cookie is
    always an array, one entry per line; of a field of [keepsFirst] only the
    first line counts; the lines of every other field are joined, with "; "
    for cookie and ", " otherwise.  The [headers] object is an object
    literal, so a line of the name [__proto__] is not filed. *)
Definition addHeaderLine (dest : gmap string HeaderValue)
    (line : string * string) : gmap string HeaderValue :=
  let field := toLowerCase line.1 in
  let value := line.2 in
  if bool_decide (field = "set-cookie")
  then match dest !! field with
       | Some (HArr values) => <[field := HArr (values ++ [value])]> dest
       | _ => <[field := HArr [value]]> dest
       end
  else if bool_decide (field ∈ keepsFirst)
  then match dest !! field with
       | None => <[field := HStr value]> dest
       | Some _ => dest
       end
  else match dest !! field with
       | Some (HStr joined) =>
           let delimiter :=
             if bool_decide (field = "cookie") then "; " else ", " in
           <[field := HStr (joined +:+ delimiter +:+ value)]> dest
       | _ => assign field (HStr value) dest
       end.

(** The values of the lines of one field, in the order of the lines. *)
Definition fieldValues (field : string) (lines : list (string * string))
    : list string :=
  omap (λ line : string * string,
          if bool_decide (toLowerCase line.1 = field) then Some line.2
          else None) lines.

(** The lines without those of one field. *)
Definition dropField (field : string) (lines : list (string * string))
    : list (string * string) :=
  omap (λ line : string * string,
          if bool_decide (toLowerCase line.1 = field) then None
          else Some line) lines.

(** The lines with only the first line of one field. *)
Fixpoint firstLineOnly (field : string) (lines : list (string * string))
    : list (string * string) :=
  match lines with
  | [] => []
  | line :: rest =>
      if bool_decide (toLowerCase line.1 = field)
      then line :: dropField field rest
      else line :: firstLineOnly field rest
  end.

(** Node's [IncomingMessage]: [rawHeaders] are the header lines as they
    were received. *)
Record IncomingMessage := {
  statusCode : Z;
  statusMessage : string;
  rawHeaders : list (string * string);
}.

(** [res.headers] *)
Definition resHeaders (res : IncomingMessage) : gmap string HeaderValue :=
  foldl addHeaderLine ∅ (rawHeaders res).

(** The event of the request that settles [doFetch]'s promise. *)
Inductive TransportEvent :=
  | OnError (e : string)
  | OnAborted
  | OnContinue
  | OnInformation (statusCode : Z)
  | OnTimeout
  | OnUpgrade
  | OnResponse (res : IncomingMessage).

(** Which participant of the race of [handleSignalAndTimeout] settles
    first; [NobodyYet] when none has settled where the script ends. *)
Inductive Winner :=
  | SignalFires
  | TimerFires
  | TransportSettles (ev : TransportEvent)
  | NobodyYet.

(** What one attempt meets.  [abortedAtResponse] is what the handler of
    "response" reads at line 114; an abort calls [signal.onabort] at once,
    so when the flag is set the signal's promise is rejected already and the
    response comes too late to settle the attempt.  An attempt whose
    redirect is followed stays in its race, its timer armed, until the call
    it made settles: [timerFiresWhileFollowing] tells whether its timer
    fires while that call is pending. *)
Record Hop := {
  clockAtDeadline : Z;      (* [Date.now( )] of line 161 *)
  clockAtSetup : Z;         (* [Date.now( )] of line 170 *)
  abortedAtSetup : bool;    (* [signal.aborted] at line 203 *)
  winner : Winner;
  abortedAtResponse : bool; (* [signal.aborted] when "response" is handled *)
  timerFiresWhileFollowing : bool;
}.

(* ===================================================================== *)
(** * Responses and settlements *)
(* ===================================================================== *)

Record StreamResponse := {
  responseDecoders : list Decoder;
  responseUrl : string;
  responseHeaders : gmap string HeaderValue;
  responseRedirected : bool;
  responseStatus : Z;
  responseStatusText : string;
  responseHttpVersion : Z;
  responseIntegrity : option string;
}.

Inductive Response :=
  | PlainResponse (status : Z)
      (* [new Response( null, { status } )] *)
  | Streamed (r : StreamResponse).

(** How the promise of an attempt ends; [Pending] when nothing in the
    script settles it. *)
Inductive Settlement :=
  | Resolved (r : Response)
  | Rejected (e : FetchError)
  | Pending.

(* ===================================================================== *)
(** * fetch-common.ts: the coordinator (lines 150-225 of setupFetch) *)
(* ===================================================================== *)

(** The closure variable [timerId] of a [TimeoutInfo]. *)
Record TimeoutInfo := { timerId : option nat }.

(** Line 156: [extra.timeoutAt || ( typeof init.timeout === "number" ?
    Date.now( ) + init.timeout : void 0 )]. *)
Definition computeTimeoutAt (extra : FetchExtra) (init : FetchInit) (now : Z)
    : option Z :=
  if truthyNum (timeoutAt extra) then timeoutAt extra
  else match timeout init with
       | Some t => Some (now + t)%Z
       | None => None
       end.

(** Lines 165-194.  The promise's executor runs at once, so the timer is
    armed when [setupTimeout] returns. *)
Definition setupTimeout (timeoutAt : option Z) (now : Z) (w : World)
    : Completion (option TimeoutInfo) * World :=
  match timeoutAt with
  | Some t =>
      if negb (truthyNum timeoutAt) then (Normal None, w)
      else if bool_decide (t ≤ now)%Z then (Throw EDeadline, w)
      else let '(id, w') := setTimeout (t - now)%Z w in
           (Normal (Some {| timerId := Some id |}), w')
  | None => (Normal None, w)
  end.

(** [timeoutInfo.clear]: lines 177-181. *)
Definition clear (info : TimeoutInfo) (w : World) : World :=
  match timerId info with
  | Some id => clearTimeout id w
  | None => w
  end.

(** [cleanup]: lines 218-225. *)
Definition cleanup (timeoutInfo : option TimeoutInfo) (signal : bool)
    (w : World) : World :=
  let w1 := match timeoutInfo with
            | Some info => clear info w
            | None => w
            end in
  if signal then detachListener w1 else w1.

(** What setupFetch computes; the other fields of its result are its
    arguments handed back. *)
Record Setup := {
  endStream : bool;
  headersToSend : gmap string string;
  setupTimeoutAt : option Z;
  timeoutInfo : option TimeoutInfo;
  signalPromise : bool;
}.

Definition setupFetch (hop : Hop) (session : SimpleSession)
    (request : Request) (init : FetchInit) (extra : FetchExtra) (w : World)
    : Completion Setup * World :=
  match ensureNotCircularRedirection (redirected extra) with
  | Throw e => (Throw e, w)
  | Normal _ =>
      match parseUrl (url request) with
      | None => (Throw EInvalidUrl, w)
      | Some parts =>
          let cookies := getCookies (jar w) (url request) in
          let toSend := assembleHeaders session request parts cookies in
          let deadline := computeTimeoutAt extra init (clockAtDeadline hop) in
          match setupTimeout deadline (clockAtSetup hop) w with
          | (Throw e, w1) => (Throw e, w1)
          | (Normal info, w1) =>
              if signal init && abortedAtSetup hop
              then (Throw ESignalAborted, w1)
              else
                (Normal {| endStream := isEndStream (method request);
                           headersToSend := toSend;
                           setupTimeoutAt := deadline;
                           timeoutInfo := info;
                           signalPromise := signal init |},
                 if signal init then attachListener w1 else w1)
          end
      end
  end.

(* ===================================================================== *)
(** * fetch-http1.ts: the "response" handler (lines 112-217) *)
(* ===================================================================== *)

Inductive Handled :=
  | Dropped
      (* [req.abort( ); return;]: the promise is left alone *)
  | Resolve (r : Response)
  | Reject (e : FetchError)
  | Recurse (request : Request) (init : FetchInit) (extra : FetchExtra).
      (* [resolve( fetchImpl( session, request, init, extra ) )] *)

(** Lines 156-162: the response's cookies go to the jar. *)
Definition storeCookies (resHeaders : gmap string HeaderValue)
    (url : string) (w : World) : World :=
  if truthy (resHeaders !! HTTP1_HEADER_SET_COOKIE)
  then setJar (setCookies (arrayify (resHeaders !! HTTP1_HEADER_SET_COOKIE))
                 url (jar w)) w
  else w.

(** Lines 164-165. *)
Definition stripCookieHeaders (resHeaders : gmap string HeaderValue)
    : gmap string HeaderValue :=
  delete "set-cookie2" (delete "set-cookie" resHeaders).

(** Lines 167-216, once the location is parsed, the cookies are stored and
    the cookie headers are deleted. *)
Definition redirectPolicy (request : Request) (init : FetchInit)
    (extra : FetchExtra) (setup : Setup) (session : SimpleSession)
    (res : IncomingMessage) (resHeaders : gmap string HeaderValue)
    (location : option string) : Handled :=
  let isRedirected := isRedirectStatus (statusCode res) in
  if isRedirected && negb (truthyStr location)
  then Reject makeIllegalRedirectError
  else if negb isRedirected || bool_decide (redirect request = manual)
  then Resolve (Streamed
         {| responseDecoders := contentDecoders session;
            responseUrl := url request;
            responseHeaders := resHeaders;
            responseRedirected :=
              if bool_decide (redirect request = manual) then false
              else bool_decide (0 < length (redirected extra));
            responseStatus := statusCode res;
            responseStatusText := statusMessage res;
            responseHttpVersion := 1;
            responseIntegrity := integrity request |})
  else if bool_decide (redirect request = error)
  then Reject (makeRedirectionError location)
  else if negb (endStream setup)
  then Reject (makeRedirectionMethodError location (method request))
  else match location with
       | Some l =>
           if negb (truthyStr location) then Reject makeIllegalRedirectError
           else Recurse (clone request l)
                  {| signal := signal init;
                     onTrailers := onTrailers init;
                     timeout := None |}
                  {| redirected := redirected extra ++ [url request];
                     timeoutAt := setupTimeoutAt setup |}
       | None => Reject makeIllegalRedirectError
       end.

Definition onResponse (session : SimpleSession) (request : Request)
    (init : FetchInit) (extra : FetchExtra) (setup : Setup)
    (res : IncomingMessage) (aborted : bool) (w : World)
    : Handled * World :=
  if signal init && aborted then (Dropped, w)
  else
    match parseLocation (resHeaders res !! HTTP1_HEADER_LOCATION)
            (url request) with
    | Throw e => (Reject e, w)
    | Normal location =>
        let w1 := storeCookies (resHeaders res) (url request) w in
        (redirectPolicy request init extra setup session res
           (stripCookieHeaders (resHeaders res)) location, w1)
    end.

(** The other handlers of [doFetch] (lines 74-110). *)
Definition onOtherEvent (ev : TransportEvent) : Settlement :=
  match ev with
  | OnError e => Rejected (ETransport e)
  | OnAborted => Rejected makeAbortedError
  | OnContinue => Rejected make100Error
  | OnInformation status => Resolved (PlainResponse status)
  | OnTimeout => Rejected makeTimeoutError
  | OnUpgrade => Rejected EUpgrade
  | OnResponse _ => Pending
  end.

(* ===================================================================== *)
(** * fetch-http1.ts: fetchImpl and fetch *)
(* ===================================================================== *)

(** The number of promises [handleSignalAndTimeout] races. *)
Definition participants (setup : Setup) : nat :=
  (if signalPromise setup then 1 else 0)
  + (match timeoutInfo setup with Some _ => 1 | None => 0 end) + 1.

(** One attempt per entry of the script.  [handleSignalAndTimeout] first
    calls [fetcher( )], which sends the request, then builds the race; once
    the race settles, [cleanup] runs and the settlement is handed on.  A
    redirect that is followed resolves the request's promise with the
    promise of the next attempt, and the attempt stays in its own race
    meanwhile: when the inner call settles, the attempt settles as that call
    does and its [cleanup] runs; while the inner call is pending, the
    attempt's own timer, armed for the same deadline, may fire first, and
    then the attempt is rejected with the deadline's error and its [cleanup]
    runs, whereas the inner attempts stay as they are, their timers armed.
    (The signal has one [onabort] slot, which the innermost attempt set up
    holds, so an abort is told by the innermost attempt's entry.)  A
    response that the handler drops leaves the attempt to the signal's
    promise, which the abort has rejected.  A script entry that names a
    participant the race does not have, [NobodyYet], and the end of the
    script, leave the promise pending.  Not modelled: a failing
    [request.readable( )], and the delivery of trailers after the body. *)
Fixpoint fetchImpl (script : list Hop) (session : SimpleSession)
    (input : Request) (init : FetchInit) (extra : FetchExtra) (w : World)
    : Settlement * World :=
  match script with
  | [] => (Pending, w)
  | hop :: rest =>
      match setupFetch hop session input init extra w with
      | (Throw e, w1) => (Rejected e, w1)
      | (Normal setup, w1) =>
          let w2 := addEffect (Sent (url input) (headersToSend setup)) w1 in
          let w3 := addEffect (RaceStarted (participants setup)) w2 in
          let info := timeoutInfo setup in
          match winner hop with
          | SignalFires =>
              if signalPromise setup
              then (Rejected ESignalAborted, cleanup info (signal init) w3)
              else (Pending, w3)
          | TimerFires =>
              match info with
              | Some {| timerId := Some id |} =>
                  (Rejected EDeadline,
                   cleanup (Some {| timerId := None |}) (signal init)
                     (fireTimer id w3))
              | _ => (Pending, w3)
              end
          | TransportSettles (OnResponse res) =>
              match onResponse session input init extra setup res
                      (abortedAtResponse hop) w3 with
              | (Dropped, w4) =>
                  (Rejected ESignalAborted, cleanup info (signal init) w4)
              | (Resolve r, w4) =>
                  (Resolved r, cleanup info (signal init) w4)
              | (Reject e, w4) =>
                  (Rejected e, cleanup info (signal init) w4)
              | (Recurse request' init' extra', w4) =>
                  match fetchImpl rest session request' init' extra' w4 with
                  | (Pending, w5) =>
                      match info with
                      | Some {| timerId := Some id |} =>
                          if timerFiresWhileFollowing hop
                          then (Rejected EDeadline,
                                cleanup (Some {| timerId := None |})
                                  (signal init) (fireTimer id w5))
                          else (Pending, w5)
                      | _ => (Pending, w5)
                      end
                  | (settled, w5) => (settled, cleanup info (signal init) w5)
                  end
              end
          | TransportSettles ev =>
              (onOtherEvent ev, cleanup info (signal init) w3)
          | NobodyYet => (Pending, w3)
          end
      end
  end.

(** [fetch]: the first attempt of a chain. *)
Definition fetch (script : list Hop) (session : SimpleSession)
    (input : Request) (init : FetchInit) (w : World) : Settlement * World :=
  fetchImpl script session input init
    {| redirected := []; timeoutAt := None |} w.

(* ===================================================================== *)
(** * Redirect chains *)
(* ===================================================================== *)

(** The arguments and the world fetchImpl calls itself with when the
    attempt [hop] ends in a redirect that is followed. *)
Definition nextAttempt (hop : Hop) (session : SimpleSession)
    (input : Request) (init : FetchInit) (extra : FetchExtra) (w : World)
    : option (Request * FetchInit * FetchExtra * World) :=
  match setupFetch hop session input init extra w with
  | (Normal setup, w1) =>
      match winner hop with
      | TransportSettles (OnResponse res) =>
          match onResponse session input init extra setup res
                  (abortedAtResponse hop)
                  (addEffect (RaceStarted (participants setup))
                     (addEffect (Sent (url input) (headersToSend setup)) w1))
          with
          | (Recurse request' init' extra', w4) =>
              Some (request', init', extra', w4)
          | _ => None
          end
      | _ => None
      end
  | _ => None
  end.

(** Where a chain stands after every attempt of [script] was redirected
    and followed. *)
Fixpoint chain (script : list Hop) (session : SimpleSession)
    (input : Request) (init : FetchInit) (extra : FetchExtra) (w : World)
    : option (Request * FetchInit * FetchExtra * World) :=
  match script with
  | [] => Some (input, init, extra, w)
  | hop :: rest =>
      match nextAttempt hop session input init extra w with
      | Some (request', init', extra', w') =>
          chain rest session request' init' extra' w'
      | None => None
      end
  end.

(** [w'] is [w] after some calls of [cleanup]. *)
Definition cleanedUp (w w' : World) : Prop :=
  ∃ calls : list (option TimeoutInfo * bool),
    w' = foldl (λ acc call, cleanup call.1 call.2 acc) w calls.

(** The response [res] with only the first of its location lines. *)
Definition withFirstLocationOnly (res : IncomingMessage) : IncomingMessage :=
  {| statusCode := statusCode res;
     statusMessage := statusMessage res;
     rawHeaders := firstLineOnly HTTP1_HEADER_LOCATION (rawHeaders res) |}.

(** The pending timer that [cleanup] would cancel, if there is one. *)
Definition pendingTimer (info : option TimeoutInfo) (w : World) : option nat :=
  match info with
  | Some {| timerId := Some id |} =>
      match timers w !! id with
      | Some Armed => Some id
      | _ => None
      end
  | _ => None
  end.

(** The requests sent, in order. *)
Definition sentUrls (es : list Effect) : list string :=
  omap (λ e, match e with Sent u _ => Some u | _ => None end) es.

(** The races built, in order, each with its number of participants. *)
Definition racesStarted (es : list Effect) : list nat :=
  omap (λ e, match e with RaceStarted n => Some n | _ => None end) es.

End Engine.

(* ===================================================================== *)
(** * Concrete collaborators, to run the engine on examples *)
(* ===================================================================== *)

Module Demo.

(** A small stand-in for Node's [URL]: absolute [http:] and [https:] URLs
    with a non-empty host parse, everything else is taken as a path
    relative to the base's origin; an absolute URL without a host is
    refused, as [new URL( "http://" )] is. *)
Definition splitScheme (u : string) : option (string * string) :=
  if String.prefix "http://" u
  then Some ("http:", String.substring 7 (String.length u - 7) u)
  else if String.prefix "https://" u
  then Some ("https:", String.substring 8 (String.length u - 8) u)
  else None.

Definition parse (u : string) : option UrlParts :=
  match splitScheme u with
  | Some (proto, rest) =>
      let '(host, path) :=
        match String.index 0 "/" rest with
        | Some i =>
            (String.substring 0 i rest,
             String.substring i (String.length rest - i) rest)
        | None => (rest, "/")
        end in
      if bool_decide (host = "") then None
      else Some {| origin := proto +:+ "//" +:+ host;
                   protocol := proto;
                   pathname := path;
                   search := "";
                   hash := "" |}
  | None => None
  end.

Definition href (parts : UrlParts) : string :=
  origin parts +:+ pathname parts +:+ search parts +:+ hash parts.

Definition resolve (location base : string) : option string :=
  match splitScheme location with
  | Some _ => href <$> parse location
  | None =>
      match parse base with
      | Some b =>
          if String.prefix "/" location then Some (origin b +:+ location)
          else Some (origin b +:+ "/" +:+ location)
      | None => None
      end
  end.

#[export] Instance urlLib : UrlLib :=
  {| parseUrl := parse; resolveUrl := resolve |}.

(** Modelled from the spec: a redirect status is a status code of the 3xx
    class that conventionally carries a location header. *)
#[export] Instance redirectStatuses : RedirectStatusTable :=
  {| isRedirectStatus status :=
       bool_decide (status ∈ [300; 301; 302; 303; 305; 307; 308]%Z) |}.

(** A cookie jar that keeps every cookie string with the origin it came
    from and hands back those of the asked URL's origin, oldest first. *)
Definition originOf (u : string) : string :=
  match parse u with Some parts => origin parts | None => u end.

#[export] Instance logJar : CookieJar (list (string * string)) :=
  {| getCookies jar u :=
       (filter (λ entry, entry.2 = originOf u) jar).*1;
     setCookies cookies u jar :=
       jar ++ map (λ cookie, (cookie, originOf u)) cookies |}.

Definition emptyWorld : World (J := list (string * string)) :=
  {| jar := []; timers := []; onabort := false; effects := [] |}.

Definition session1 : SimpleSession :=
  {| sessionProtocol := http1;
     accept := "application/json,text/*;q=0.9,*/*;q=0.8";
     userAgent := "fetch-h2/1.0.0";
     contentDecoders := [] |}.

Definition getRequest (u : string) (policy : RedirectTypes) : Request :=
  {| url := u; method := "GET"; headers := []; redirect := policy;
     integrity := None; bodyLength := None; bodyMime := None |}.

Definition postRequest (u : string) (policy : RedirectTypes) : Request :=
  {| url := u; method := "POST"; headers := []; redirect := policy;
     integrity := None; bodyLength := Some 6%Z; bodyMime := None |}.

Definition noInit : FetchInit :=
  {| signal := false; onTrailers := false; timeout := None |}.

Definition message (status : Z) (lines : list (string * string))
    : IncomingMessage :=
  {| statusCode := status; statusMessage := ""; rawHeaders := lines |}.

(** An attempt at clock [now], the signal untouched, answered by [res]. *)
Definition answered (now : Z) (res : IncomingMessage) : Hop :=
  {| clockAtDeadline := now; clockAtSetup := now; abortedAtSetup := false;
     winner := TransportSettles (OnResponse res);
     abortedAtResponse := false;
     timerFiresWhileFollowing := false |}.

Definition redirectTo (location : string) : IncomingMessage :=
  message 302 [("Location", location)].

Definition ok : IncomingMessage := message 200 [].

Definition A : string := "http://a.example/one".
Definition B : string := "http://a.example/two".

(** The server sends [A] to [B] and [B] back to [A]. *)
Definition pingPong : list Hop :=
  [answered 0 (redirectTo B); answered 1 (redirectTo A);
   answered 2 (redirectTo B); answered 3 (redirectTo A);
   answered 4 (redirectTo B)].

Definition C : string := "http://a.example/three".

Definition firstExtra : FetchExtra :=
  {| redirected := []; timeoutAt := None |}.

(** A caller that allows ten milliseconds. *)
Definition timedInit : FetchInit :=
  {| signal := false; onTrailers := false; timeout := Some 10%Z |}.

(** A caller that brings a cancellation signal. *)
Definition signalInit : FetchInit :=
  {| signal := true; onTrailers := false; timeout := None |}.

(** An attempt set up at clock 10 while the signal is already aborted. *)
Definition lateAndAborted : Hop :=
  {| clockAtDeadline := 10; clockAtSetup := 10; abortedAtSetup := true;
     winner := SignalFires; abortedAtResponse := true;
     timerFiresWhileFollowing := false |}.

(** A response that sets a cookie and names a location no URL can be made
    of. *)
Definition badLocation : IncomingMessage :=
  message 200 [("Location", "http://"); ("Set-Cookie", "foo=bar")].

(** A response that sets two cookies, one of them the old way. *)
Definition withCookie : IncomingMessage :=
  message 200 [("Set-Cookie", "foo=bar"); ("Set-Cookie2", "old=1");
               ("Content-Type", "text/plain")].

(** A redirect whose location header occurred twice. *)
Definition twoLocations : IncomingMessage :=
  message 302 [("Location", B); ("Location", C)].

(** A request that brings a cookie header of its own. *)
Definition cookieRequest : Request :=
  {| url := A; method := "GET"; headers := [("cookie", "x=1")];
     redirect := follow; integrity := None; bodyLength := None;
     bodyMime := None |}.

(** A world whose jar already holds a cookie of [A]'s origin. *)
Definition cookieWorld : World (J := list (string * string)) :=
  {| jar := [("foo=bar", "http://a.example")]; timers := [];
     onabort := false; effects := [] |}.

(** A world with one pending timer and the listener attached. *)
Definition armedWorld : World (J := list (string * string)) :=
  {| jar := []; timers := [Armed]; onabort := true;
     effects := [TimerArmed 0 10; ListenerAttached] |}.

End Demo.

(* ===================================================================== *)
(** * More concrete requests and attempts *)
(* ===================================================================== *)

Module DemoMore.
Import Demo.

Definition session2 : SimpleSession :=
  {| sessionProtocol := http2;
     accept := "application/json,text/*;q=0.9,*/*;q=0.8";
     userAgent := "fetch-h2/1.0.0";
     contentDecoders := [{| name := "br" |}] |}.

(** A request with headers of its own, one of them a default's name. *)
Definition hostRequest : Request :=
  {| url := A; method := "GET";
     headers := [("host", "b.example"); ("accept", "text/html")];
     redirect := follow; integrity := None; bodyLength := None;
     bodyMime := None |}.

(** A request with a header of the name [__proto__]. *)
Definition protoRequest : Request :=
  {| url := A; method := "GET";
     headers := [("accept", "text/html"); ("__proto__", "x")];
     redirect := follow; integrity := None; bodyLength := None;
     bodyMime := None |}.

(** A POST with a body of six bytes of JSON. *)
Definition jsonPost : Request :=
  {| url := A; method := "POST"; headers := []; redirect := follow;
     integrity := None; bodyLength := Some 6%Z;
     bodyMime := Some "application/json" |}.

Definition partsOfA : UrlParts :=
  {| origin := "http://a.example"; protocol := "http:";
     pathname := "/one"; search := "?q=1"; hash := "" |}.

(** An attempt at clock [now] that the request's event [ev] settles. *)
Definition settledBy (now : Z) (ev : TransportEvent) : Hop :=
  {| clockAtDeadline := now; clockAtSetup := now; abortedAtSetup := false;
     winner := TransportSettles ev; abortedAtResponse := false;
     timerFiresWhileFollowing := false |}.

(** An attempt whose response is read after the signal was aborted. *)
Definition answeredTooLate (res : IncomingMessage) : Hop :=
  {| clockAtDeadline := 0; clockAtSetup := 0; abortedAtSetup := false;
     winner := TransportSettles (OnResponse res);
     abortedAtResponse := true;
     timerFiresWhileFollowing := false |}.

(** An attempt at clock [now] that is redirected by [res] and whose timer
    fires while the call it made is pending. *)
Definition overtaken (now : Z) (res : IncomingMessage) : Hop :=
  {| clockAtDeadline := now; clockAtSetup := now; abortedAtSetup := false;
     winner := TransportSettles (OnResponse res);
     abortedAtResponse := false;
     timerFiresWhileFollowing := true |}.

(** An attempt at clock [now] that nothing has settled yet. *)
Definition waiting (now : Z) : Hop :=
  {| clockAtDeadline := now; clockAtSetup := now; abortedAtSetup := false;
     winner := NobodyYet; abortedAtResponse := false;
     timerFiresWhileFollowing := false |}.

(** A redirect to [B] that sets a cookie on the way. *)
Definition redirectWithCookie : IncomingMessage :=
  message 302 [("Location", B); ("Set-Cookie", "sid=1")].

(** A caller that allows no time at all. *)
Definition zeroTimeout : FetchInit :=
  {| signal := false; onTrailers := false; timeout := Some 0%Z |}.

End DemoMore.

(* ===================================================================== *)
(** * Header assembly *)
(* ===================================================================== *)

Lemma append_assoc (a b c : string) : (a +:+ b) +:+ c = a +:+ b +:+ c.
Proof.
  induction a as [|ch a IH]; [done|].
  change (String ch ((a +:+ b) +:+ c) = String ch (a +:+ b +:+ c)).
  by f_equal.
Qed.

(** [join] followed by a suffix, written as a fold over the elements. *)
Lemma concat_append_foldr (sep x : string) (xs : list string) (suffix : string) :
  String.concat sep (x :: xs) +:+ suffix =
  x +:+ foldr (λ y acc, sep +:+ y +:+ acc) suffix xs.
Proof.
  revert x. induction xs as [|y ys IH]; intros x.
  - done.
  - cbn [foldr]. rewrite <- IH. cbn [String.concat].
    by rewrite !append_assoc.
Qed.

Lemma get_None_has (headers : Headers) (key : string) :
  get headers key = None ↔ has headers key = false.
Proof. unfold has. destruct (get headers key); split; congruence. Qed.

(** Merging at line 104-105 is appending what [get] reports, if anything. *)
Lemma cookieList_app (jarCookies : list string) (headers : Headers) :
  cookieList jarCookies headers =
  jarCookies ++ arrayify (HStr <$> get headers HTTP2_HEADER_COOKIE).
Proof.
  unfold cookieList, has.
  destruct (get headers HTTP2_HEADER_COOKIE); simpl; [done|].
  by rewrite app_nil_r.
Qed.

Lemma initialHeaders_lookup_cookie session method parts acceptEnc :
  initialHeaders session method parts acceptEnc !! HTTP2_HEADER_COOKIE = None.
Proof.
  unfold initialHeaders. rewrite !lookup_insert_ne by done.
  destruct (sessionProtocol session); [done|].
  by rewrite !lookup_insert_ne.
Qed.

Lemma initialHeaders_lookup_accept_encoding session method parts acceptEnc :
  initialHeaders session method parts acceptEnc !! HTTP2_HEADER_ACCEPT_ENCODING
  = Some acceptEnc.
Proof. unfold initialHeaders. by rewrite lookup_insert_eq. Qed.

(** The copy loop never writes the cookie header. *)
Lemma copyHeaders_lookup_cookie session (headers : Headers)
    (toSend : gmap string string) :
  copyHeaders session headers toSend !! HTTP2_HEADER_COOKIE
  = toSend !! HTTP2_HEADER_COOKIE.
Proof.
  unfold copyHeaders, entries.
  revert toSend. induction headers as [|[key val] rest IH]; intros toSend.
  - done.
  - simpl. rewrite IH. unfold copyHeader.
    destruct (bool_decide (key = "host") && _).
    + by rewrite lookup_insert_ne.
    + case_bool_decide as Hkey; simpl; [done|].
      unfold assign. case_bool_decide; [done|].
      by rewrite lookup_insert_ne.
Qed.

(** The copy loop leaves alone every name the request does not carry,
    but for the authority pseudo-header. *)
Lemma copyHeaders_lookup_absent session (headers : Headers)
    (toSend : gmap string string) (key : string) :
  get headers key = None → key ≠ HTTP2_HEADER_AUTHORITY →
  copyHeaders session headers toSend !! key = toSend !! key.
Proof.
  unfold copyHeaders, entries. intros Hget Hauth.
  revert toSend. induction headers as [|[k val] rest IH]; intros toSend.
  - done.
  - simpl in Hget. case_bool_decide as Hk; [done|].
    simpl. rewrite IH by done. unfold copyHeader.
    destruct (bool_decide (k = "host") && _).
    + by rewrite lookup_insert_ne.
    + destruct (negb _); [|done].
      unfold assign. case_bool_decide; [done|].
      by rewrite lookup_insert_ne.
Qed.

Lemma withBodyFraming_lookup request endStream
    (toSend : gmap string string) (key : string) :
  key ≠ HTTP2_HEADER_CONTENT_LENGTH → key ≠ HTTP2_HEADER_CONTENT_TYPE →
  withBodyFraming request endStream toSend !! key = toSend !! key.
Proof.
  intros Hlen Htype. unfold withBodyFraming.
  assert (∀ m : gmap string string,
    (if negb endStream
        && bool_decide (is_Some (bodyLength request))
        && negb (has (headers request) HTTP2_HEADER_CONTENT_LENGTH)
     then match bodyLength request with
          | Some len => <[HTTP2_HEADER_CONTENT_LENGTH := pretty len]> m
          | None => m
          end
     else m) !! key = m !! key) as Hfirst.
  { intros m. destruct (_ && _); [|done].
    destruct (bodyLength request); [|done]. by rewrite lookup_insert_ne. }
  destruct (_ && truthyStr _); [|apply Hfirst].
  destruct (bodyMime request); [|apply Hfirst].
  rewrite lookup_insert_ne by done. apply Hfirst.
Qed.

Lemma withCookies_lookup_cookie (cookies : list string)
    (toSend : gmap string string) :
  toSend !! HTTP2_HEADER_COOKIE = None →
  withCookies cookies toSend !! HTTP2_HEADER_COOKIE =
  match cookies with
  | [] => None
  | _ :: _ => Some (String.concat "; " cookies)
  end.
Proof.
  intros Hnone. unfold withCookies. destruct cookies as [|c cs].
  - done.
  - rewrite bool_decide_true by (simpl; lia). by rewrite lookup_insert_eq.
Qed.

Lemma withCookies_lookup_other (cookies : list string)
    (toSend : gmap string string) (key : string) :
  key ≠ HTTP2_HEADER_COOKIE →
  withCookies cookies toSend !! key = toSend !! key.
Proof.
  intros Hkey. unfold withCookies. case_bool_decide; [|done].
  by rewrite lookup_insert_ne.
Qed.

(** The assembled accept-encoding header is the computed one unless the
    request brings its own. *)
Lemma assembleHeaders_accept_encoding session request parts jarCookies :
  get (headers request) HTTP2_HEADER_ACCEPT_ENCODING = None →
  assembleHeaders session request parts jarCookies
    !! HTTP2_HEADER_ACCEPT_ENCODING
  = Some (acceptEncoding (contentDecoders session)).
Proof.
  intros Hget. unfold assembleHeaders.
  rewrite withBodyFraming_lookup by done.
  rewrite copyHeaders_lookup_absent by done.
  rewrite withCookies_lookup_other by done.
  apply initialHeaders_lookup_accept_encoding.
Qed.

(** C5: with no content decoders the accept-encoding value is exactly
    "gzip;q=1.0, deflate;q=0.5"; otherwise it lists every decoder's name at
    quality 1.0, in the decoders' order, joined by ", ", and ends with
    ", gzip;q=0.8, deflate;q=0.5" (so the single decoder "br" gives
    "br;q=1.0, gzip;q=0.8, deflate;q=0.5"); this value is what the header
    object is built with, and it is the accept-encoding header of the
    assembled headers unless the request brings an accept-encoding header of
    its own. *)
Theorem accept_encoding_composition :
  acceptEncoding [] = "gzip;q=1.0, deflate;q=0.5"
  ∧ (∀ (decoder : Decoder) (others : list Decoder),
       acceptEncoding (decoder :: others) =
       name decoder +:+ ";q=1.0"
       +:+ foldr (λ d acc, ", " +:+ name d +:+ ";q=1.0" +:+ acc)
             ", gzip;q=0.8, deflate;q=0.5" others)
  ∧ acceptEncoding [{| name := "br" |}] = "br;q=1.0, gzip;q=0.8, deflate;q=0.5"
  ∧ (∀ session method parts,
       initialHeaders session method parts
         (acceptEncoding (contentDecoders session))
         !! HTTP2_HEADER_ACCEPT_ENCODING
       = Some (acceptEncoding (contentDecoders session)))
  ∧ (∀ session request parts jarCookies,
       has (headers request) HTTP2_HEADER_ACCEPT_ENCODING = true
       ∨ assembleHeaders session request parts jarCookies
           !! HTTP2_HEADER_ACCEPT_ENCODING
         = Some (acceptEncoding (contentDecoders session))).
Proof.
  split; [done|]. split; [|split; [done|split]].
  - intros decoder others. unfold acceptEncoding.
    rewrite bool_decide_false by (simpl; lia).
    cbn [map]. rewrite concat_append_foldr, append_assoc. f_equal. f_equal.
    induction others as [|d rest IH]; [done|].
    cbn [map foldr]. by rewrite IH, append_assoc.
  - intros. apply initialHeaders_lookup_accept_encoding.
  - intros session request parts jarCookies.
    destruct (has (headers request) HTTP2_HEADER_ACCEPT_ENCODING) eqn:Hhas;
      [by left|right].
    apply assembleHeaders_accept_encoding. by apply get_None_has.
Qed.

(** The cookie header of the assembled headers is the jar's cookies
    followed by the request's own cookie header value, joined with "; ",
    and is absent when there is none. *)
Lemma assembleHeaders_cookie session request parts jarCookies :
  assembleHeaders session request parts jarCookies !! HTTP2_HEADER_COOKIE =
  match jarCookies
        ++ arrayify (HStr <$> get (headers request) HTTP2_HEADER_COOKIE) with
  | [] => None
  | c :: cs => Some (String.concat "; " (c :: cs))
  end.
Proof.
  unfold assembleHeaders.
  rewrite withBodyFraming_lookup by done.
  rewrite copyHeaders_lookup_cookie.
  rewrite withCookies_lookup_cookie by apply initialHeaders_lookup_cookie.
  rewrite cookieList_app. by destruct (_ ++ _).
Qed.

(* ===================================================================== *)
(** * The redirection-loop check *)
(* ===================================================================== *)

Lemma scanFrom_None (lst : option string) (urls : list string) :
  scanFrom lst urls = None ↔ ∀ u, u ∈ urls → Some u ≠ lst.
Proof.
  induction urls as [|u rest IH]; simpl.
  - split; [|done]. intros _ u Hu. by apply elem_of_nil in Hu.
  - case_bool_decide as Hu.
    + split; [done|]. intros Hall. exfalso.
      by apply (Hall u); [left|].
    + rewrite IH. split.
      * intros Hall v Hv. apply elem_of_cons in Hv as [->|Hv]; auto.
      * intros Hall v Hv. apply Hall. by right.
Qed.

(** What the loop finds is the suffix of the popped array that starts at
    the first occurrence of the popped URL. *)
Lemma scanFrom_Some (lst : option string) (urls sub : list string) :
  scanFrom lst urls = Some sub ↔
  ∃ before u rest,
    urls = before ++ u :: rest ∧ sub = u :: rest ∧ Some u = lst
    ∧ ∀ v, v ∈ before → Some v ≠ lst.
Proof.
  revert sub. induction urls as [|u rest IH]; intros sub; simpl.
  - split; [done|]. intros (before & v & tl & Heq & _).
    by destruct before.
  - case_bool_decide as Hu.
    + split.
      * intros [= <-]. exists [], u, rest. split_and!; [done..|].
        intros v Hv. by apply elem_of_nil in Hv.
      * intros (before & v & tl & Heq & -> & Hv & Hbefore).
        destruct before as [|b before]; simplify_eq/=; try done.
        exfalso. by apply (Hbefore b); [left|].
    + rewrite IH. split.
      * intros (before & v & tl & -> & -> & Hv & Hbefore).
        exists (u :: before), v, tl. split_and!; [done..|].
        intros x Hx. apply elem_of_cons in Hx as [->|Hx]; auto.
      * intros (before & v & tl & Heq & -> & Hv & Hbefore).
        destruct before as [|b before]; simplify_eq/=; try done.
        exists before, v, tl. split_and!; [done..|].
        intros x Hx. apply Hbefore. by right.
Qed.

(** The check only ever looks at the list of URLs already visited: it
    passes exactly when the most recent one does not occur before itself. *)
Lemma ensureNotCircularRedirection_passes (visited : list string) (current : string) :
  ensureNotCircularRedirection (visited ++ [current]) = Normal tt
  ↔ current ∉ visited.
Proof.
  unfold ensureNotCircularRedirection, pop.
  rewrite last_snoc, removelast_last.
  destruct (scanFrom (Some current) visited) as [sub|] eqn:Hscan.
  - split; [done|]. intros Hnotin. exfalso.
    apply scanFrom_Some in Hscan
      as (before & u & rest & -> & _ & [= ->] & _).
    apply Hnotin. set_solver.
  - split; [|done]. intros _ Hin.
    rewrite scanFrom_None in Hscan. by apply (Hscan current).
Qed.

Lemma ensureNotCircularRedirection_nil :
  ensureNotCircularRedirection [] = Normal tt.
Proof. done. Qed.

(** A list of visited URLs without a repetition passes the check, whatever
    the URL of the request at hand is. *)
Lemma ensureNotCircularRedirection_NoDup (visited : list string) :
  NoDup visited → ensureNotCircularRedirection visited = Normal tt.
Proof.
  destruct (decide (visited = [])) as [->|Hne]; [done|].
  destruct (exists_last Hne) as (front & current & ->).
  intros Hnodup. apply ensureNotCircularRedirection_passes.
  apply NoDup_app in Hnodup as (_ & Hdisj & _).
  intros Hin. apply (Hdisj current Hin). set_solver.
Qed.

Lemma scanFrom_first_occurrence (before rest : list string) (current : string) :
  current ∉ before →
  scanFrom (Some current) (before ++ current :: rest) = Some (current :: rest).
Proof.
  induction before as [|b before IH]; intros Hnotin; simpl.
  - by rewrite bool_decide_true.
  - rewrite bool_decide_false by set_solver. apply IH. set_solver.
Qed.

(** What the check does detect: the URL visited last occurring earlier. *)
Lemma ensureNotCircularRedirection_throws (before rest : list string) (current : string) :
  current ∉ before →
  ensureNotCircularRedirection (before ++ current :: rest ++ [current])
  = Throw (ERedirectionLoop (current :: rest)).
Proof.
  intros Hnotin. unfold ensureNotCircularRedirection, pop.
  replace (before ++ current :: rest ++ [current])
    with ((before ++ current :: rest) ++ [current])
    by (by rewrite <- app_assoc).
  rewrite last_snoc, removelast_last.
  by rewrite scanFrom_first_occurrence.
Qed.

(* ===================================================================== *)
(** * The coordinator *)
(* ===================================================================== *)

Section EngineFacts.
Context `{UrlLib} `{RedirectStatusTable} {J : Type} `{CookieJar J}.

Implicit Types (w : World (J := J)) (info : option TimeoutInfo).

Lemma clearTimeout_not_pending (id : nat) w :
  timers (clearTimeout id w) !! id ≠ Some Armed.
Proof.
  unfold clearTimeout.
  destruct (timers w !! id) as [[]|] eqn:Hid; simpl; try congruence.
  rewrite list_lookup_insert_eq; [done|]. by eapply lookup_lt_Some.
Qed.

Lemma clearTimeout_idempotent (id : nat) w :
  clearTimeout id (clearTimeout id w) = clearTimeout id w.
Proof.
  pose proof (clearTimeout_not_pending id w) as Hnot.
  unfold clearTimeout at 1.
  by destruct (timers (clearTimeout id w) !! id) as [[]|].
Qed.

Lemma detachListener_timers w : timers (detachListener w) = timers w.
Proof. unfold detachListener. by destruct (onabort w). Qed.

Lemma detachListener_onabort w : onabort (detachListener w) = false.
Proof. unfold detachListener. by destruct (onabort w) eqn:Hon. Qed.

Lemma detachListener_idempotent w :
  detachListener (detachListener w) = detachListener w.
Proof.
  unfold detachListener at 1. by rewrite detachListener_onabort.
Qed.

(** Cancelling a timer that is not pending changes nothing. *)
Lemma clearTimeout_noop (id : nat) w :
  timers w !! id ≠ Some Armed → clearTimeout id w = w.
Proof. unfold clearTimeout. by destruct (timers w !! id) as [[]|]. Qed.

Lemma clear_after_cleanup info (sg : bool) w (ti : TimeoutInfo) :
  info = Some ti → clear ti (cleanup info sg w) = cleanup info sg w.
Proof.
  intros ->. unfold cleanup, clear.
  destruct (timerId ti) as [id|]; [|done].
  apply clearTimeout_noop.
  destruct sg; [rewrite detachListener_timers|];
    apply clearTimeout_not_pending.
Qed.

Lemma cleanup_onabort info w : onabort (cleanup info true w) = false.
Proof. unfold cleanup. apply detachListener_onabort. Qed.

Lemma cleanup_cleanup info (sg : bool) w :
  cleanup info sg (cleanup info sg w) = cleanup info sg w.
Proof.
  unfold cleanup at 1.
  assert (match info with
          | Some ti => clear ti (cleanup info sg w)
          | None => cleanup info sg w
          end = cleanup info sg w) as ->.
  { destruct info as [ti|]; [|done]. by apply clear_after_cleanup. }
  destruct sg; [|done].
  unfold detachListener. by rewrite cleanup_onabort.
Qed.

Lemma cleanup_effects info (sg : bool) w :
  effects (cleanup info sg w) =
  effects w
  ++ match pendingTimer info w with
     | Some id => [TimerCancelled id]
     | None => []
     end
  ++ (if sg && onabort w then [ListenerDetached] else []).
Proof.
  unfold cleanup, pendingTimer, clear, clearTimeout, detachListener.
  destruct info as [[[id|]]|]; simpl;
    [destruct (timers w !! id) as [[]|]; simpl|..];
    destruct sg, (onabort w); simpl;
    rewrite ?app_nil_r, <- ?app_assoc; done.
Qed.

Lemma cleanup_jar info (sg : bool) w : jar (cleanup info sg w) = jar w.
Proof.
  unfold cleanup, clear, clearTimeout, detachListener.
  destruct info as [[[id|]]|]; simpl;
    [destruct (timers w !! id) as [[]|]; simpl|..];
    destruct sg; simpl; try done;
    by match goal with |- context [onabort ?x] => destruct (onabort x) end.
Qed.

Lemma sentUrls_app (es1 es2 : list Effect) :
  sentUrls (es1 ++ es2) = sentUrls es1 ++ sentUrls es2.
Proof. unfold sentUrls. apply omap_app. Qed.

Lemma racesStarted_app (es1 es2 : list Effect) :
  racesStarted (es1 ++ es2) = racesStarted es1 ++ racesStarted es2.
Proof. unfold racesStarted. apply omap_app. Qed.

Lemma cleanup_sentUrls info (sg : bool) w :
  sentUrls (effects (cleanup info sg w)) = sentUrls (effects w).
Proof.
  rewrite cleanup_effects, !sentUrls_app.
  destruct (pendingTimer info w), (sg && onabort w); simpl;
    by rewrite ?app_nil_r.
Qed.

Lemma cleanup_racesStarted info (sg : bool) w :
  racesStarted (effects (cleanup info sg w)) = racesStarted (effects w).
Proof.
  rewrite cleanup_effects, !racesStarted_app.
  destruct (pendingTimer info w), (sg && onabort w); simpl;
    by rewrite ?app_nil_r.
Qed.

(** C9: [cleanup] is idempotent.  Calling it again, any number of times,
    leaves the world exactly as the first call left it; that first call
    cancels the attempt's timer once if it was still pending and detaches
    the signal's listener once if one was attached, and afterwards neither
    resource is left to release. *)
Theorem cleanup_idempotent info (sg : bool) w :
  cleanup info sg (cleanup info sg w) = cleanup info sg w
  ∧ (∀ n : nat, Nat.iter (S n) (cleanup info sg) w = cleanup info sg w)
  ∧ effects (cleanup info sg w) =
      effects w
      ++ match pendingTimer info w with
         | Some id => [TimerCancelled id]
         | None => []
         end
      ++ (if sg && onabort w then [ListenerDetached] else [])
  ∧ pendingTimer info (cleanup info sg w) = None
  ∧ sg && onabort (cleanup info sg w) = false.
Proof.
  split_and!.
  - apply cleanup_cleanup.
  - induction n as [|n IH]; [done|].
    change (cleanup info sg (Nat.iter (S n) (cleanup info sg) w)
            = cleanup info sg w).
    rewrite IH. apply cleanup_cleanup.
  - apply cleanup_effects.
  - unfold pendingTimer. destruct info as [[[id|]]|]; try done.
    assert (timers (cleanup (Some {| timerId := Some id |}) sg w) !! id
            ≠ Some Armed) as Hnot.
    { unfold cleanup, clear. simpl.
      destruct sg; [rewrite detachListener_timers|];
        apply clearTimeout_not_pending. }
    by destruct (timers _ !! id) as [[]|].
  - destruct sg; [|done]. simpl. apply cleanup_onabort.
Qed.

(* ===================================================================== *)
(** * setupFetch *)
(* ===================================================================== *)

Lemma setupTimeout_unset (deadline : option Z) (now : Z) w :
  truthyNum deadline = false →
  setupTimeout deadline now w = (Normal None, w).
Proof.
  unfold setupTimeout. destruct deadline as [t|]; [|done].
  by intros ->.
Qed.

Lemma setupTimeout_elapsed (T now : Z) w :
  T ≠ 0%Z → (T ≤ now)%Z →
  setupTimeout (Some T) now w = (Throw EDeadline, w).
Proof.
  intros Hnz Hle. unfold setupTimeout, truthyNum.
  rewrite (bool_decide_false (T = 0%Z)) by done. simpl.
  by rewrite bool_decide_true.
Qed.

Lemma setupTimeout_armed (T now : Z) w :
  T ≠ 0%Z → (now < T)%Z →
  setupTimeout (Some T) now w =
  (Normal (Some {| timerId := Some (length (timers w)) |}),
   (setTimeout (T - now) w).2).
Proof.
  intros Hnz Hlt. unfold setupTimeout, truthyNum.
  rewrite (bool_decide_false (T = 0%Z)) by done. simpl.
  by rewrite bool_decide_false by lia.
Qed.

(** What a setup that succeeds went through. *)
Lemma setupFetch_Normal hop session request init extra w setup w1 :
  setupFetch hop session request init extra w = (Normal setup, w1) →
  ensureNotCircularRedirection (redirected extra) = Normal tt
  ∧ signal init && abortedAtSetup hop = false
  ∧ ∃ parts info w0,
      parseUrl (url request) = Some parts
      ∧ setupTimeout (computeTimeoutAt extra init (clockAtDeadline hop))
          (clockAtSetup hop) w = (Normal info, w0)
      ∧ w1 = (if signal init then attachListener w0 else w0)
      ∧ setup =
          {| endStream := isEndStream (method request);
             headersToSend :=
               assembleHeaders session request parts
                 (getCookies (jar w) (url request));
             setupTimeoutAt :=
               computeTimeoutAt extra init (clockAtDeadline hop);
             timeoutInfo := info;
             signalPromise := signal init |}.
Proof.
  unfold setupFetch.
  destruct (ensureNotCircularRedirection (redirected extra)) as [[]|];
    [|done].
  destruct (parseUrl (url request)) as [parts|]; [|done].
  destruct (setupTimeout _ _ w) as [[info|e] w0] eqn:Htimeout; [|done].
  destruct (signal init && abortedAtSetup hop) eqn:Habort; [done|].
  intros [= <- <-]. split_and!; [done..|].
  by exists parts, info, w0.
Qed.

Lemma setTimeout_jar (delay : Z) w : jar (setTimeout delay w).2 = jar w.
Proof. done. Qed.

Lemma setupTimeout_jar (deadline : option Z) (now : Z) w c w0 :
  setupTimeout deadline now w = (c, w0) → jar w0 = jar w.
Proof.
  unfold setupTimeout. destruct deadline as [t|]; [|by intros [= _ <-]].
  destruct (negb _); [by intros [= _ <-]|].
  destruct (bool_decide _); by intros [= _ <-].
Qed.

(** C6: the cookie header that setupFetch assembles is the session jar's
    cookies for the request URL, followed by the cookie header value of the
    request's own headers (if it has one), joined with "; "; there is no
    cookie header at all when both are missing; the request's own cookie
    header is never copied over it. *)
Theorem cookie_header_merge hop session request init extra w setup w1 :
  setupFetch hop session request init extra w = (Normal setup, w1) →
  headersToSend setup !! HTTP2_HEADER_COOKIE =
  match getCookies (jar w) (url request)
        ++ arrayify (HStr <$> get (headers request) HTTP2_HEADER_COOKIE) with
  | [] => None
  | c :: cs => Some (String.concat "; " (c :: cs))
  end.
Proof.
  intros Hsetup.
  apply setupFetch_Normal in Hsetup
    as (_ & _ & parts & info & w0 & _ & _ & _ & ->).
  apply assembleHeaders_cookie.
Qed.

(** C8, as the code has it: once the redirection-loop check has passed and
    the request URL parses, setupFetch fails at once, before anything is
    sent and before a race is built, (1) with the [TimeoutError] of the
    deadline when a deadline is set and reached, leaving the world
    untouched, and (2) otherwise, when the supplied signal is already
    aborted, with the [AbortError] of the signal; in case (2) a deadline
    still ahead has its timer armed already, and nothing else happened. *)
Theorem setup_fails_before_sending hop (rest : list Hop) session request init
    extra w parts :
  ensureNotCircularRedirection (redirected extra) = Normal tt →
  parseUrl (url request) = Some parts →
  (∀ T, computeTimeoutAt extra init (clockAtDeadline hop) = Some T →
        T ≠ 0%Z → (T ≤ clockAtSetup hop)%Z →
        setupFetch hop session request init extra w = (Throw EDeadline, w)
        ∧ fetchImpl (hop :: rest) session request init extra w
          = (Rejected EDeadline, w)
        ∧ errorKind EDeadline = TimeoutError)
  ∧ (signal init = true → abortedAtSetup hop = true →
     (∀ T, computeTimeoutAt extra init (clockAtDeadline hop) = Some T →
           T ≠ 0%Z → (clockAtSetup hop < T)%Z) →
     ∃ w1,
       setupFetch hop session request init extra w = (Throw ESignalAborted, w1)
       ∧ fetchImpl (hop :: rest) session request init extra w
         = (Rejected ESignalAborted, w1)
       ∧ errorKind ESignalAborted = AbortError
       ∧ sentUrls (effects w1) = sentUrls (effects w)
       ∧ racesStarted (effects w1) = racesStarted (effects w)
       ∧ jar w1 = jar w ∧ onabort w1 = onabort w
       ∧ w1 = match computeTimeoutAt extra init (clockAtDeadline hop) with
              | Some T =>
                  if bool_decide (T = 0%Z) then w
                  else (setTimeout (T - clockAtSetup hop) w).2
              | None => w
              end).
Proof.
  intros Hloop Hurl. split.
  - intros T Hdeadline Hnz Hle.
    assert (setupFetch hop session request init extra w
            = (Throw EDeadline, w)) as Hsetup.
    { unfold setupFetch. rewrite Hloop, Hurl, Hdeadline.
      by rewrite setupTimeout_elapsed. }
    split_and!; [done| |done].
    cbn [fetchImpl]. by rewrite Hsetup.
  - intros Hsignal Haborted Hahead.
    destruct (computeTimeoutAt extra init (clockAtDeadline hop))
      as [T|] eqn:Hdeadline.
    + destruct (decide (T = 0%Z)) as [->|Hnz].
      * exists w.
        assert (setupFetch hop session request init extra w
                = (Throw ESignalAborted, w)) as Hsetup.
        { unfold setupFetch. rewrite Hloop, Hurl, Hdeadline.
          rewrite setupTimeout_unset by done.
          by rewrite Hsignal, Haborted. }
        split_and!; try done.
        cbn [fetchImpl]. by rewrite Hsetup.
      * exists (setTimeout (T - clockAtSetup hop) w).2.
        assert (setupFetch hop session request init extra w
                = (Throw ESignalAborted,
                   (setTimeout (T - clockAtSetup hop) w).2)) as Hsetup.
        { unfold setupFetch. rewrite Hloop, Hurl, Hdeadline.
          rewrite setupTimeout_armed by auto.
          by rewrite Hsignal, Haborted. }
        split_and!; try done.
        -- cbn [fetchImpl]. by rewrite Hsetup.
        -- simpl. rewrite sentUrls_app. simpl. by rewrite app_nil_r.
        -- simpl. rewrite racesStarted_app. simpl. by rewrite app_nil_r.
        -- by rewrite bool_decide_false.
    + exists w.
      assert (setupFetch hop session request init extra w
              = (Throw ESignalAborted, w)) as Hsetup.
      { unfold setupFetch. rewrite Hloop, Hurl, Hdeadline. simpl.
        by rewrite Hsignal, Haborted. }
      split_and!; try done.
      cbn [fetchImpl]. by rewrite Hsetup.
Qed.

(* ===================================================================== *)
(** * The "response" handler *)
(* ===================================================================== *)

(** A response that is handled: the signal is not aborted and the location
    header, if it is a string, resolves. *)
Lemma onResponse_handled session request init extra setup res
    (aborted : bool) w location :
  signal init && aborted = false →
  parseLocation (resHeaders res !! HTTP1_HEADER_LOCATION) (url request)
  = Normal location →
  onResponse session request init extra setup res aborted w =
  (redirectPolicy request init extra setup session res
     (stripCookieHeaders (resHeaders res)) location,
   storeCookies (resHeaders res) (url request) w).
Proof. intros Hguard Hloc. unfold onResponse. by rewrite Hguard, Hloc. Qed.

(** A response that arrives when the signal is aborted is dropped. *)
Lemma onResponse_dropped session request init extra setup res w :
  signal init = true →
  onResponse session request init extra setup res true w = (Dropped, w).
Proof. intros Hsignal. unfold onResponse. by rewrite Hsignal. Qed.

Lemma redirectPolicy_not_Dropped request init extra setup session res
    hs location :
  redirectPolicy request init extra setup session res hs location ≠ Dropped.
Proof.
  unfold redirectPolicy.
  repeat (match goal with
          | |- context [if ?b then _ else _] => destruct b
          | |- context [match ?o with Some _ => _ | None => _ end] =>
              destruct o
          end; try done).
Qed.

Lemma stripCookieHeaders_lookup (hs : gmap string HeaderValue) (key : string) :
  stripCookieHeaders hs !! key =
  if bool_decide (key = "set-cookie" ∨ key = "set-cookie2") then None
  else hs !! key.
Proof.
  unfold stripCookieHeaders. case_bool_decide as Hkey.
  - destruct Hkey as [-> | ->].
    + rewrite lookup_delete_ne by done. apply lookup_delete_eq.
    + apply lookup_delete_eq.
  - rewrite !lookup_delete_ne; [done|intros <-; auto..].
Qed.

(** What a terminal response is made of. *)
Lemma redirectPolicy_Resolve request init extra setup session res hs
    location (r : StreamResponse) :
  redirectPolicy request init extra setup session res hs location
  = Resolve (Streamed r) →
  responseHeaders r = hs
  ∧ responseUrl r = url request
  ∧ responseRedirected r =
      (if bool_decide (redirect request = manual) then false
       else bool_decide (0 < length (redirected extra))).
Proof.
  unfold redirectPolicy.
  destruct (_ && negb (truthyStr location)); [done|].
  destruct (_ || _); [by intros [= <-]|].
  destruct (bool_decide (redirect request = error)); [done|].
  destruct (negb (endStream setup)); [done|].
  destruct location as [l|]; [|done]. by destruct (negb _).
Qed.

(** What a followed redirect hands to the next attempt. *)
Lemma redirectPolicy_Recurse request init extra setup session res hs
    location request' init' extra' :
  redirectPolicy request init extra setup session res hs location
  = Recurse request' init' extra' →
  ∃ l, location = Some l
    ∧ request' = clone request l
    ∧ init' = {| signal := signal init; onTrailers := onTrailers init;
                 timeout := None |}
    ∧ extra' = {| redirected := redirected extra ++ [url request];
                  timeoutAt := setupTimeoutAt setup |}
    ∧ redirect request = follow
    ∧ endStream setup = true
    ∧ isRedirectStatus (statusCode res) = true.
Proof.
  unfold redirectPolicy.
  destruct (isRedirectStatus (statusCode res)) eqn:Hstatus; simpl;
    [|done].
  destruct (negb (truthyStr location)); [done|]. simpl.
  case_bool_decide as Hmanual; [done|].
  case_bool_decide as Herror; [done|].
  destruct (endStream setup); [|done]. simpl.
  destruct location as [l|]; [|done].
  intros [= <- <- <-]. exists l. split_and!; try done.
  by destruct (redirect request).
Qed.

Lemma onResponse_Resolve session request init extra setup res
    (aborted : bool) w r w' :
  onResponse session request init extra setup res aborted w
  = (Resolve (Streamed r), w') →
  responseHeaders r = stripCookieHeaders (resHeaders res)
  ∧ responseUrl r = url request
  ∧ responseRedirected r =
      (if bool_decide (redirect request = manual) then false
       else bool_decide (0 < length (redirected extra))).
Proof.
  unfold onResponse. destruct (signal init && aborted); [done|].
  destruct (parseLocation _ _) as [location|]; [|done].
  intros [= Hpolicy _]. by apply redirectPolicy_Resolve in Hpolicy.
Qed.

Lemma onResponse_Recurse session request init extra setup res
    (aborted : bool) w request' init' extra' w' :
  onResponse session request init extra setup res aborted w
  = (Recurse request' init' extra', w') →
  w' = storeCookies (resHeaders res) (url request) w
  ∧ ∃ l, request' = clone request l
    ∧ init' = {| signal := signal init; onTrailers := onTrailers init;
                 timeout := None |}
    ∧ extra' = {| redirected := redirected extra ++ [url request];
                  timeoutAt := setupTimeoutAt setup |}.
Proof.
  unfold onResponse. destruct (signal init && aborted); [done|].
  destruct (parseLocation _ _) as [location|]; [|done].
  intros [= Hpolicy <-]. split; [done|].
  apply redirectPolicy_Recurse in Hpolicy
    as (l & _ & -> & -> & -> & _). by exists l.
Qed.

Lemma isEndStream_true (m : string) :
  isEndStream m = true ↔ m = "GET" ∨ m = "HEAD".
Proof.
  unfold isEndStream, HTTP2_METHOD_GET, HTTP2_METHOD_HEAD.
  rewrite orb_true_iff, !bool_decide_eq_true. done.
Qed.

Lemma isEndStream_false (m : string) :
  isEndStream m = false ↔ m ≠ "GET" ∧ m ≠ "HEAD".
Proof.
  unfold isEndStream, HTTP2_METHOD_GET, HTTP2_METHOD_HEAD.
  rewrite orb_false_iff, !bool_decide_eq_false. done.
Qed.

(** C3: under the policy [follow], when the response to an attempt has a
    redirect status and a location that resolves to a non-empty URL, the
    attempt is rejected with [makeRedirectionMethodError( location, method )]
    if the method is neither GET nor HEAD; if it is GET or HEAD, fetchImpl
    calls itself with the request cloned onto the resolved location (same
    method), the signal and trailer callback of [init], the visited list
    extended by the current URL and the same [timeoutAt], and settles as
    that call does; while that call is pending, the attempt is pending too,
    unless its own timer fires, which rejects it with the deadline's
    error. *)
Theorem follow_redirect_by_method hop (rest : list Hop) session input init
    extra w setup w1 res location :
  setupFetch hop session input init extra w = (Normal setup, w1) →
  winner hop = TransportSettles (OnResponse res) →
  signal init && abortedAtResponse hop = false →
  redirect input = follow →
  isRedirectStatus (statusCode res) = true →
  parseLocation (resHeaders res !! HTTP1_HEADER_LOCATION) (url input)
  = Normal (Some location) →
  location ≠ "" →
  let w4 :=
    storeCookies (resHeaders res) (url input)
      (addEffect (RaceStarted (participants setup))
         (addEffect (Sent (url input) (headersToSend setup)) w1)) in
  let init' :=
    {| signal := signal init; onTrailers := onTrailers init;
       timeout := None |} in
  let extra' :=
    {| redirected := redirected extra ++ [url input];
       timeoutAt := setupTimeoutAt setup |} in
  (method input ≠ "GET" ∧ method input ≠ "HEAD" →
   fetchImpl (hop :: rest) session input init extra w =
   (Rejected (makeRedirectionMethodError (Some location) (method input)),
    cleanup (timeoutInfo setup) (signal init) w4))
  ∧ (method input = "GET" ∨ method input = "HEAD" →
     url (clone input location) = location
     ∧ method (clone input location) = method input
     ∧ nextAttempt hop session input init extra w
       = Some (clone input location, init', extra', w4)
     ∧ fetchImpl (hop :: rest) session input init extra w =
       match fetchImpl rest session (clone input location) init' extra' w4
       with
       | (Pending, w5) =>
           match timeoutInfo setup with
           | Some {| timerId := Some id |} =>
               if timerFiresWhileFollowing hop
               then (Rejected EDeadline,
                     cleanup (Some {| timerId := None |}) (signal init)
                       (fireTimer id w5))
               else (Pending, w5)
           | _ => (Pending, w5)
           end
       | (settled, w5) =>
           (settled, cleanup (timeoutInfo setup) (signal init) w5)
       end).
Proof.
  intros Hsetup Hwinner Hguard Hfollow Hstatus Hloc Hne w4 init' extra'.
  pose proof (setupFetch_Normal _ _ _ _ _ _ _ _ Hsetup)
    as (_ & _ & parts & info & w0 & _ & _ & _ & Hrecord).
  assert (endStream setup = isEndStream (method input)) as Hend
    by (by rewrite Hrecord).
  assert (truthyStr (Some location) = true) as Htruthy
    by (simpl; by rewrite bool_decide_false).
  split.
  - intros Hmethod. apply isEndStream_false in Hmethod.
    cbn [fetchImpl]. rewrite Hsetup, Hwinner.
    rewrite (onResponse_handled _ _ _ _ _ _ _ _ _ Hguard Hloc).
    unfold redirectPolicy.
    rewrite Hstatus, Htruthy, Hfollow, Hend, Hmethod. done.
  - intros Hmethod. apply isEndStream_true in Hmethod.
    assert (onResponse session input init extra setup res
              (abortedAtResponse hop)
              (addEffect (RaceStarted (participants setup))
                 (addEffect (Sent (url input) (headersToSend setup)) w1))
            = (Recurse (clone input location) init' extra', w4)) as Hhandled.
    { rewrite (onResponse_handled _ _ _ _ _ _ _ _ _ Hguard Hloc).
      unfold redirectPolicy.
      rewrite Hstatus, Htruthy, Hfollow, Hend, Hmethod. done. }
    split_and!; [done..| |].
    + unfold nextAttempt. by rewrite Hsetup, Hwinner, Hhandled.
    + cbn [fetchImpl]. by rewrite Hsetup, Hwinner, Hhandled.
Qed.

(** What Node files under a name is made of the lines of that name
    only. *)
Lemma addHeaderLine_lookup_ne (dest : gmap string HeaderValue)
    (line : string * string) (key : string) :
  toLowerCase line.1 ≠ key →
  addHeaderLine dest line !! key = dest !! key.
Proof.
  intros Hkey. unfold addHeaderLine, assign.
  repeat case_bool_decide; repeat case_match;
    try done; by rewrite lookup_insert_ne.
Qed.

Lemma addHeaderLine_location (dest : gmap string HeaderValue)
    (line : string * string) :
  toLowerCase line.1 = HTTP1_HEADER_LOCATION →
  addHeaderLine dest line =
  match dest !! HTTP1_HEADER_LOCATION with
  | Some _ => dest
  | None => <[HTTP1_HEADER_LOCATION := HStr line.2]> dest
  end.
Proof.
  intros Hfield. unfold addHeaderLine. rewrite Hfield.
  rewrite (bool_decide_false (HTTP1_HEADER_LOCATION = "set-cookie")) by done.
  rewrite (bool_decide_true (HTTP1_HEADER_LOCATION ∈ keepsFirst))
    by (by apply (bool_decide_unpack _)).
  by destruct (dest !! HTTP1_HEADER_LOCATION).
Qed.

Lemma foldl_addHeaderLine_location (lines : list (string * string))
    (dest : gmap string HeaderValue) :
  foldl addHeaderLine dest lines !! HTTP1_HEADER_LOCATION =
  match dest !! HTTP1_HEADER_LOCATION with
  | Some v => Some v
  | None => HStr <$> head (fieldValues HTTP1_HEADER_LOCATION lines)
  end.
Proof.
  revert dest. induction lines as [|line rest IH]; intros dest.
  - simpl. by destruct (dest !! _).
  - cbn [foldl]. rewrite IH. unfold fieldValues. cbn [omap list_omap].
    fold (fieldValues HTTP1_HEADER_LOCATION rest).
    case_bool_decide as Hfield.
    + rewrite (addHeaderLine_location _ _ Hfield).
      destruct (dest !! HTTP1_HEADER_LOCATION) as [v|] eqn:Hdest.
      * by rewrite Hdest.
      * by rewrite lookup_insert_eq.
    + by rewrite addHeaderLine_lookup_ne.
Qed.

Lemma addHeaderLine_set_cookie (dest : gmap string HeaderValue)
    (line : string * string) :
  toLowerCase line.1 = HTTP1_HEADER_SET_COOKIE →
  addHeaderLine dest line =
  match dest !! HTTP1_HEADER_SET_COOKIE with
  | Some (HArr values) =>
      <[HTTP1_HEADER_SET_COOKIE := HArr (values ++ [line.2])]> dest
  | _ => <[HTTP1_HEADER_SET_COOKIE := HArr [line.2]]> dest
  end.
Proof.
  intros Hfield. unfold addHeaderLine. rewrite Hfield.
  by rewrite (bool_decide_true (HTTP1_HEADER_SET_COOKIE = "set-cookie")).
Qed.

Lemma foldl_addHeaderLine_set_cookie (lines : list (string * string))
    (dest : gmap string HeaderValue) (values : list string) :
  dest !! HTTP1_HEADER_SET_COOKIE
  = match values with [] => None | all => Some (HArr all) end →
  foldl addHeaderLine dest lines !! HTTP1_HEADER_SET_COOKIE =
  match values ++ fieldValues HTTP1_HEADER_SET_COOKIE lines with
  | [] => None
  | all => Some (HArr all)
  end.
Proof.
  revert dest values. induction lines as [|line rest IH];
    intros dest values Hdest.
  - cbn [foldl fieldValues omap list_omap]. rewrite app_nil_r, Hdest.
    by destruct values.
  - cbn [foldl]. unfold fieldValues. cbn [omap list_omap].
    fold (fieldValues HTTP1_HEADER_SET_COOKIE rest).
    case_bool_decide as Hfield.
    + rewrite (IH _ (values ++ [line.2])).
      * by rewrite <- app_assoc.
      * rewrite (addHeaderLine_set_cookie _ _ Hfield), Hdest.
        destruct values as [|v vs]; simpl; by rewrite lookup_insert_eq.
    + apply IH. by rewrite addHeaderLine_lookup_ne.
Qed.

Lemma foldl_addHeaderLine_dropField (lines : list (string * string))
    (dest : gmap string HeaderValue) :
  is_Some (dest !! HTTP1_HEADER_LOCATION) →
  foldl addHeaderLine dest (dropField HTTP1_HEADER_LOCATION lines)
  = foldl addHeaderLine dest lines.
Proof.
  revert dest. induction lines as [|line rest IH]; intros dest Hdest; [done|].
  unfold dropField. cbn [omap list_omap].
  fold (dropField HTTP1_HEADER_LOCATION rest).
  case_bool_decide as Hfield.
  - cbn [foldl]. rewrite (addHeaderLine_location _ _ Hfield).
    destruct Hdest as [v Hdest]. rewrite Hdest. apply IH. by exists v.
  - cbn [foldl]. apply IH. by rewrite addHeaderLine_lookup_ne.
Qed.

Lemma foldl_addHeaderLine_firstLineOnly (lines : list (string * string))
    (dest : gmap string HeaderValue) :
  foldl addHeaderLine dest (firstLineOnly HTTP1_HEADER_LOCATION lines)
  = foldl addHeaderLine dest lines.
Proof.
  revert dest. induction lines as [|line rest IH]; intros dest; [done|].
  cbn [firstLineOnly]. case_bool_decide as Hfield; cbn [foldl]; [|apply IH].
  apply foldl_addHeaderLine_dropField.
  rewrite (addHeaderLine_location _ _ Hfield).
  destruct (dest !! HTTP1_HEADER_LOCATION) as [v|] eqn:Hdest.
  - by exists v.
  - rewrite lookup_insert_eq. by eexists.
Qed.

(** What the handler reads under location and set-cookie. *)
Lemma resHeaders_location (res : IncomingMessage) :
  resHeaders res !! HTTP1_HEADER_LOCATION
  = HStr <$> head (fieldValues HTTP1_HEADER_LOCATION (rawHeaders res)).
Proof. unfold resHeaders. by rewrite foldl_addHeaderLine_location. Qed.

Lemma resHeaders_set_cookie (res : IncomingMessage) :
  resHeaders res !! HTTP1_HEADER_SET_COOKIE =
  match fieldValues HTTP1_HEADER_SET_COOKIE (rawHeaders res) with
  | [] => None
  | values => Some (HArr values)
  end.
Proof.
  unfold resHeaders.
  by rewrite (foldl_addHeaderLine_set_cookie _ _ []).
Qed.

Lemma resHeaders_withFirstLocationOnly (res : IncomingMessage) :
  resHeaders (withFirstLocationOnly res) = resHeaders res.
Proof. apply foldl_addHeaderLine_firstLineOnly. Qed.

Lemma storeCookies_jar (hs : gmap string HeaderValue) (u : string) w :
  jar (storeCookies hs u w) =
  if truthy (hs !! HTTP1_HEADER_SET_COOKIE)
  then setCookies (arrayify (hs !! HTTP1_HEADER_SET_COOKIE)) u (jar w)
  else jar w.
Proof. unfold storeCookies. by destruct (truthy _). Qed.

Lemma storeCookies_effects (hs : gmap string HeaderValue) (u : string) w :
  effects (storeCookies hs u w) = effects w.
Proof. unfold storeCookies. by destruct (truthy _). Qed.

(** C7, as the code has it: when a response is handled (the signal is not
    aborted) and its location header, if there is one, resolves, the values
    of all its set-cookie lines are put into the jar first, in one call
    when there is at least one, and only then the redirect policy is
    evaluated, on headers from which set-cookie and set-cookie2 are gone; so
    whatever the policy yields (a terminal response, a redirect that is
    followed, a rejection) comes with the jar already updated, and a
    terminal response carries neither header and every other header
    unchanged. *)
Theorem cookies_stored_before_policy session request init extra setup res
    (aborted : bool) w location :
  signal init && aborted = false →
  parseLocation (resHeaders res !! HTTP1_HEADER_LOCATION) (url request)
  = Normal location →
  ∃ outcome w1,
    onResponse session request init extra setup res aborted w = (outcome, w1)
    ∧ outcome =
        redirectPolicy request init extra setup session res
          (stripCookieHeaders (resHeaders res)) location
    ∧ outcome ≠ Dropped
    ∧ arrayify (resHeaders res !! HTTP1_HEADER_SET_COOKIE)
      = fieldValues HTTP1_HEADER_SET_COOKIE (rawHeaders res)
    ∧ jar w1 =
        match fieldValues HTTP1_HEADER_SET_COOKIE (rawHeaders res) with
        | [] => jar w
        | values => setCookies values (url request) (jar w)
        end
    ∧ (∀ r, outcome = Resolve (Streamed r) →
            responseHeaders r !! "set-cookie" = None
            ∧ responseHeaders r !! "set-cookie2" = None
            ∧ ∀ key, key ≠ "set-cookie" → key ≠ "set-cookie2" →
                     responseHeaders r !! key = resHeaders res !! key).
Proof.
  intros Hguard Hloc. eexists _, _. split_and!.
  - by apply onResponse_handled.
  - done.
  - apply redirectPolicy_not_Dropped.
  - rewrite resHeaders_set_cookie. by destruct (fieldValues _ _).
  - rewrite storeCookies_jar, resHeaders_set_cookie.
    by destruct (fieldValues _ _).
  - intros r Hr.
    apply redirectPolicy_Resolve in Hr as (-> & _ & _).
    rewrite !stripCookieHeaders_lookup.
    rewrite !bool_decide_true by auto. split_and!; [done..|].
    intros key Hk1 Hk2. rewrite stripCookieHeaders_lookup.
    by rewrite bool_decide_false by (intros [?|?]; done).
Qed.

(** C10, as the code has it: [parseLocation] gives [null] for a location
    that is missing or an array, and resolves a string against the request
    URL.  The handler never meets an array: under location Node files the
    first location line of the response and drops the later ones, so a
    response with repeated location headers is handled exactly as the same
    response with only the first of them; it is a response with a redirect
    status and no location line at all that is rejected with
    [makeIllegalRedirectError( )], when it is handled (the signal is not
    aborted), whatever the redirect policy. *)
Theorem repeated_location_is_the_first_location session request init extra
    setup res (aborted : bool) w :
  (∀ base, parseLocation None base = Normal None)
  ∧ (∀ l base, parseLocation (Some (HArr l)) base = Normal None)
  ∧ (∀ s base,
       parseLocation (Some (HStr s)) base =
       match resolveUrl s base with
       | Some href => Normal (Some href)
       | None => Throw EInvalidUrl
       end)
  ∧ resHeaders res !! HTTP1_HEADER_LOCATION
    = HStr <$> head (fieldValues HTTP1_HEADER_LOCATION (rawHeaders res))
  ∧ onResponse session request init extra setup res aborted w
    = onResponse session request init extra setup
        (withFirstLocationOnly res) aborted w
  ∧ (fieldValues HTTP1_HEADER_LOCATION (rawHeaders res) = [] →
     isRedirectStatus (statusCode res) = true →
     signal init && aborted = false →
     onResponse session request init extra setup res aborted w =
     (Reject makeIllegalRedirectError,
      storeCookies (resHeaders res) (url request) w)).
Proof.
  split_and!; [done..|apply resHeaders_location| |].
  - unfold onResponse. by rewrite resHeaders_withFirstLocationOnly.
  - intros Hnone Hstatus Hguard.
    rewrite (onResponse_handled _ _ _ _ _ _ _ _ None Hguard)
      by (by rewrite resHeaders_location, Hnone).
    unfold redirectPolicy. by rewrite Hstatus.
Qed.

(* ===================================================================== *)
(** * Redirect chains *)
(* ===================================================================== *)

Lemma nextAttempt_Some hop session input init extra w request' init' extra' w' :
  nextAttempt hop session input init extra w
  = Some (request', init', extra', w') →
  ∃ setup w1 res l,
    setupFetch hop session input init extra w = (Normal setup, w1)
    ∧ winner hop = TransportSettles (OnResponse res)
    ∧ onResponse session input init extra setup res (abortedAtResponse hop)
        (addEffect (RaceStarted (participants setup))
           (addEffect (Sent (url input) (headersToSend setup)) w1))
      = (Recurse request' init' extra', w')
    ∧ request' = clone input l
    ∧ init' = {| signal := signal init; onTrailers := onTrailers init;
                 timeout := None |}
    ∧ extra' = {| redirected := redirected extra ++ [url input];
                  timeoutAt :=
                    computeTimeoutAt extra init (clockAtDeadline hop) |}.
Proof.
  unfold nextAttempt.
  destruct (setupFetch hop session input init extra w)
    as [[setup|e] w1] eqn:Hsetup; [|done].
  destruct (winner hop) as [| |[]|] eqn:Hwinner; try done.
  destruct (onResponse _ _ _ _ _ _ _ _) as [[] w4] eqn:Hhandled; try done.
  intros [= <- <- <- <-].
  pose proof (onResponse_Recurse _ _ _ _ _ _ _ _ _ _ _ _ Hhandled)
    as (_ & l & Hrequest & Hinit & Hextra).
  apply setupFetch_Normal in Hsetup as Hparts.
  destruct Hparts as (_ & _ & parts & info & w0 & _ & _ & _ & Hrecord).
  exists setup, w1, res, l. split_and!; try done.
  by rewrite Hextra, Hrecord.
Qed.


Lemma cleanedUp_trans w1 w2 w3 :
  cleanedUp w1 w2 → cleanedUp w2 w3 → cleanedUp w1 w3.
Proof.
  intros [calls1 ->] [calls2 ->]. exists (calls1 ++ calls2).
  by rewrite foldl_app.
Qed.

Lemma cleanedUp_sentUrls w w' :
  cleanedUp w w' → sentUrls (effects w') = sentUrls (effects w).
Proof.
  intros [calls ->]. revert w.
  induction calls as [|[info sg] calls IH]; intros w; [done|].
  simpl. rewrite IH. apply cleanup_sentUrls.
Qed.

Lemma cleanedUp_jar w w' : cleanedUp w w' → jar w' = jar w.
Proof.
  intros [calls ->]. revert w.
  induction calls as [|[info sg] calls IH]; intros w; [done|].
  simpl. rewrite IH. apply cleanup_jar.
Qed.


(** Along a chain the policy and the method stay, and the visited list
    grows by one URL per attempt. *)
Lemma chain_invariants (pre : list Hop) session input init extra w
    request' init' extra' w' :
  chain pre session input init extra w = Some (request', init', extra', w') →
  redirect request' = redirect input
  ∧ method request' = method input
  ∧ signal init' = signal init
  ∧ length (redirected extra') = length (redirected extra) + length pre.
Proof.
  revert input init extra w.
  induction pre as [|hop pre IH]; intros input init extra w Hchain.
  - simpl in Hchain. injection Hchain as <- <- <- <-.
    split_and!; first [done | simpl; lia].
  - cbn [chain] in Hchain.
    destruct (nextAttempt hop session input init extra w)
      as [[[[request1 init1] extra1] w1]|] eqn:Hnext; [|done].
    apply nextAttempt_Some in Hnext
      as (setup & w0 & res & l & _ & _ & _ & -> & -> & ->).
    destruct (IH _ _ _ _ Hchain) as (-> & -> & -> & ->).
    split_and!; first [done | simpl; rewrite length_app; simpl; lia].
Qed.



(** An attempt set up at or after the deadline is rejected on the spot. *)
Lemma fetchImpl_elapsed hop (rest : list Hop) session request init extra w
    (T : Z) :
  ensureNotCircularRedirection (redirected extra) = Normal tt →
  is_Some (parseUrl (url request)) →
  computeTimeoutAt extra init (clockAtDeadline hop) = Some T →
  T ≠ 0%Z → (T ≤ clockAtSetup hop)%Z →
  fetchImpl (hop :: rest) session request init extra w
  = (Rejected EDeadline, w).
Proof.
  intros Hloop [parts Hurl] Hdeadline Hnz Hle.
  cbn [fetchImpl]. unfold setupFetch.
  rewrite Hloop, Hurl, Hdeadline. by rewrite setupTimeout_elapsed.
Qed.


(** A streamed response comes from the attempt a followed chain ends at. *)
Lemma fetchImpl_Streamed (script : list Hop) session input init extra w
    (r : StreamResponse) wEnd :
  fetchImpl script session input init extra w = (Resolved (Streamed r), wEnd) →
  ∃ pre hop post request' init' extra' w',
    script = pre ++ hop :: post
    ∧ chain pre session input init extra w
      = Some (request', init', extra', w')
    ∧ responseUrl r = url request'
    ∧ responseRedirected r =
        (if bool_decide (redirect request' = manual) then false
         else bool_decide (0 < length (redirected extra'))).
Proof.
  revert input init extra w wEnd.
  induction script as [|hop rest IH]; intros input init extra w wEnd Hrun;
    [done|].
  cbn [fetchImpl] in Hrun.
  destruct (setupFetch hop session input init extra w)
    as [[setup|e] w1] eqn:Hsetup; [|done].
  destruct (winner hop) as [| |ev|] eqn:Hwinner; [| | |done].
  - by destruct (signalPromise setup).
  - by destruct (timeoutInfo setup) as [[[id|]]|].
  - destruct ev as [e| | |status| | |res]; try done.
    destruct (onResponse _ _ _ _ _ _ _ _) as [handled w4] eqn:Hhandled.
    destruct handled as [|r0|e|request1 init1 extra1]; try done.
    + injection Hrun as -> _.
      apply onResponse_Resolve in Hhandled as (_ & Hurl & Hflag).
      by exists [], hop, rest, input, init, extra, w.
    + assert (nextAttempt hop session input init extra w
              = Some (request1, init1, extra1, w4)) as Hnext
        by (unfold nextAttempt; by rewrite Hsetup, Hwinner, Hhandled).
      destruct (fetchImpl rest session request1 init1 extra1 w4)
        as [[r1|e|] w5] eqn:Hinner; try done;
        [|by destruct (timeoutInfo setup) as [[[id|]]|],
               (timerFiresWhileFollowing hop)].
      injection Hrun as -> _.
      apply IH in Hinner
        as (pre & hop' & post & request' & init' & extra' & w' & ->
            & Hchain & Hurl & Hflag).
      exists (hop :: pre), hop', post, request', init', extra', w'.
      split_and!; try done. cbn [chain]. by rewrite Hnext.
Qed.

(** C4: a streamed response that a chain ends with comes from the attempt
    reached after following the redirects before it; its [redirected] flag
    is false under the policy [manual], whatever was visited before, and
    otherwise it is true exactly when that attempt's list of visited URLs is
    not empty, which for a chain started with an empty list is exactly when
    the attempt is not the first. *)
Theorem redirected_flag (script : list Hop) session input init extra w
    (r : StreamResponse) wEnd :
  fetchImpl script session input init extra w = (Resolved (Streamed r), wEnd) →
  ∃ pre hop post request' init' extra' w',
    script = pre ++ hop :: post
    ∧ chain pre session input init extra w
      = Some (request', init', extra', w')
    ∧ responseUrl r = url request'
    ∧ length (redirected extra') = length (redirected extra) + length pre
    ∧ (redirect input = manual → responseRedirected r = false)
    ∧ (redirect input ≠ manual →
       (responseRedirected r = true ↔ redirected extra' ≠ []))
    ∧ (redirect input ≠ manual → redirected extra = [] →
       (responseRedirected r = true ↔ pre ≠ [])).
Proof.
  intros Hrun.
  apply fetchImpl_Streamed in Hrun
    as (pre & hop & post & request' & init' & extra' & w' & ->
        & Hchain & Hurl & Hflag).
  destruct (chain_invariants _ _ _ _ _ _ _ _ _ _ Hchain)
    as (Hpolicy & _ & _ & Hlen).
  rewrite Hpolicy in Hflag.
  exists pre, hop, post, request', init', extra', w'.
  split_and!; try done.
  - intros Hmanual. by rewrite Hflag, bool_decide_true.
  - intros Hmanual. rewrite Hflag, bool_decide_false by done.
    rewrite bool_decide_eq_true. destruct (redirected extra'); simpl.
    + split; [lia|done].
    + split; [done|lia].
  - intros Hmanual Hnil. rewrite Hflag, bool_decide_false by done.
    rewrite bool_decide_eq_true, Hlen, Hnil. destruct pre; simpl.
    + split; [lia|done].
    + split; [done|lia].
Qed.

End EngineFacts.

(* ===================================================================== *)
(** * More about the redirection-loop check *)
(* ===================================================================== *)

(** What the check throws, and on which lists. *)
Lemma ensureNotCircularRedirection_Throw_inv (redirections : list string)
    (e : FetchError) :
  ensureNotCircularRedirection redirections = Throw e →
  ∃ before current rest,
    redirections = before ++ current :: rest ++ [current]
    ∧ (current ∉ before)
    ∧ e = ERedirectionLoop (current :: rest).
Proof.
  destruct (decide (redirections = [])) as [->|Hne]; [done|].
  destruct (exists_last Hne) as (visited & current & ->).
  destruct (decide (current ∈ visited)) as [Hin|Hnotin].
  - apply list_elem_of_split_l in Hin as (before & rest & -> & Hbefore).
    rewrite <- app_assoc. simpl.
    rewrite ensureNotCircularRedirection_throws by done.
    intros [= <-]. by exists before, current, rest.
  - by rewrite (proj2 (ensureNotCircularRedirection_passes _ _) Hnotin).
Qed.

(** X1: [ensureNotCircularRedirection] passes exactly when the last URL of
    the list does not occur before it (so always on an empty or one-element
    list); it throws exactly when it does, and then the error carries the
    URLs from the first occurrence of that URL up to, and without, the last
    entry; it throws nothing else. *)
Theorem loop_check_characterised (redirections : list string) :
  (ensureNotCircularRedirection redirections = Normal tt ↔
   ∀ visited current,
     redirections = visited ++ [current] → current ∉ visited)
  ∧ (∀ urls,
       ensureNotCircularRedirection redirections
       = Throw (ERedirectionLoop urls) ↔
       ∃ before current rest,
         redirections = before ++ current :: rest ++ [current]
         ∧ (current ∉ before)
         ∧ urls = current :: rest)
  ∧ (∀ e, ensureNotCircularRedirection redirections = Throw e →
          ∃ urls, e = ERedirectionLoop urls).
Proof.
  split_and!.
  - split.
    + intros Hpass visited current ->.
      by apply ensureNotCircularRedirection_passes.
    + intros Hall.
      destruct (ensureNotCircularRedirection redirections) as [[]|e] eqn:Hrun;
        [done|].
      apply ensureNotCircularRedirection_Throw_inv in Hrun
        as (before & current & rest & -> & _ & _).
      exfalso.
      apply (Hall (before ++ current :: rest) current);
        [by rewrite <- app_assoc|set_solver].
  - intros urls. split.
    + intros Hrun. apply ensureNotCircularRedirection_Throw_inv in Hrun
        as (before & current & rest & -> & Hbefore & [= ->]).
      by exists before, current, rest.
    + intros (before & current & rest & -> & Hbefore & ->).
      by apply ensureNotCircularRedirection_throws.
  - intros e Hrun. apply ensureNotCircularRedirection_Throw_inv in Hrun
      as (before & current & rest & _ & _ & ->). by eexists.
Qed.

(* ===================================================================== *)
(** * More about attempts and chains *)
(* ===================================================================== *)

Section ChainFacts.
Context `{UrlLib} `{RedirectStatusTable} {J : Type} `{CookieJar J}.

Implicit Types (w : World (J := J)) (info : option TimeoutInfo).

Lemma setupTimeout_world (deadline : option Z) (now : Z) w c w0 :
  setupTimeout deadline now w = (c, w0) →
  jar w0 = jar w
  ∧ onabort w0 = onabort w
  ∧ sentUrls (effects w0) = sentUrls (effects w)
  ∧ racesStarted (effects w0) = racesStarted (effects w).
Proof.
  unfold setupTimeout.
  destruct deadline as [t|]; [|by intros [= _ <-]].
  destruct (negb _); [by intros [= _ <-]|].
  destruct (bool_decide _); intros [= _ <-]; [done|].
  simpl. rewrite sentUrls_app, racesStarted_app. simpl.
  by rewrite !app_nil_r.
Qed.

(** Whatever setupFetch ends with, it has sent nothing, built no race and
    left the jar alone. *)
Lemma setupFetch_world hop session request init extra w c w1 :
  setupFetch hop session request init extra w = (c, w1) →
  jar w1 = jar w
  ∧ sentUrls (effects w1) = sentUrls (effects w)
  ∧ racesStarted (effects w1) = racesStarted (effects w).
Proof.
  unfold setupFetch.
  destruct (ensureNotCircularRedirection _) as [[]|]; [|by intros [= _ <-]].
  destruct (parseUrl _) as [parts|]; [|by intros [= _ <-]].
  destruct (setupTimeout _ _ w) as [[info|e] w0] eqn:Hsetup;
    apply setupTimeout_world in Hsetup as (Hjar & _ & Hsent & Hraces);
    [|by intros [= _ <-]].
  destruct (signal init && abortedAtSetup hop); [by intros [= _ <-]|].
  intros [= _ <-]. destruct (signal init); [|done].
  simpl. rewrite sentUrls_app, racesStarted_app. simpl.
  by rewrite !app_nil_r.
Qed.

(** All there is to know when the handler follows a redirect. *)
Lemma onResponse_Recurse_inv session request init extra setup res
    (aborted : bool) w request' init' extra' w' :
  onResponse session request init extra setup res aborted w
  = (Recurse request' init' extra', w') →
  signal init && aborted = false
  ∧ w' = storeCookies (resHeaders res) (url request) w
  ∧ redirect request = follow
  ∧ endStream setup = true
  ∧ isRedirectStatus (statusCode res) = true
  ∧ ∃ l,
      parseLocation (resHeaders res !! HTTP1_HEADER_LOCATION) (url request)
      = Normal (Some l)
      ∧ l ≠ ""
      ∧ request' = clone request l.
Proof.
  unfold onResponse.
  destruct (signal init && aborted) eqn:Hguard; [done|].
  destruct (parseLocation _ _) as [location|] eqn:Hloc; [|done].
  intros [= Hpolicy <-].
  pose proof (redirectPolicy_Recurse _ _ _ _ _ _ _ _ _ _ _ Hpolicy)
    as (l & -> & -> & _ & _ & Hfollow & Hend & Hstatus).
  split_and!; try done. exists l. split_and!; try done.
  intros ->. unfold redirectPolicy in Hpolicy.
  rewrite Hstatus in Hpolicy. done.
Qed.

(** X3: a redirect is followed only under the policy [follow], for a GET or
    HEAD request, on a response with a redirect status whose location header
    is a string that resolves to a non-empty URL, read while the signal is
    not aborted; the next attempt then goes to that URL, and exactly one
    request, to the current URL, has been sent in between. *)
Theorem redirect_followed_only_when hop session input init extra w
    request' init' extra' w' :
  nextAttempt hop session input init extra w
  = Some (request', init', extra', w') →
  redirect input = follow
  ∧ (method input = "GET" ∨ method input = "HEAD")
  ∧ signal init && abortedAtResponse hop = false
  ∧ sentUrls (effects w') = sentUrls (effects w) ++ [url input]
  ∧ redirected extra' = redirected extra ++ [url input]
  ∧ ∃ res location,
      winner hop = TransportSettles (OnResponse res)
      ∧ isRedirectStatus (statusCode res) = true
      ∧ parseLocation (resHeaders res !! HTTP1_HEADER_LOCATION) (url input)
        = Normal (Some location)
      ∧ location ≠ ""
      ∧ url request' = location.
Proof.
  intros Hnext.
  apply nextAttempt_Some in Hnext
    as (setup & w1 & res & l0 & Hsetup & Hwinner & Hhandled & _ & _ & ->).
  apply onResponse_Recurse_inv in Hhandled
    as (Hguard & -> & Hfollow & Hend & Hstatus & l & Hloc & Hne & ->).
  pose proof (setupFetch_world _ _ _ _ _ _ _ _ Hsetup) as (_ & Hsent & _).
  apply setupFetch_Normal in Hsetup
    as (_ & _ & parts & info & w0 & _ & _ & _ & Hrecord).
  split_and!; try done.
  - apply isEndStream_true. by rewrite Hrecord in Hend.
  - rewrite storeCookies_effects. simpl.
    rewrite <- app_assoc, sentUrls_app, Hsent. simpl. done.
  - by exists res, l.
Qed.

(** Along a chain, the list of visited URLs grows by the URLs the requests
    went to, in order. *)
Lemma chain_visited (pre : list Hop) session input init extra w
    request' init' extra' w' :
  chain pre session input init extra w = Some (request', init', extra', w') →
  ∃ visited : list string,
    length visited = length pre
    ∧ redirected extra' = redirected extra ++ visited
    ∧ sentUrls (effects w') = sentUrls (effects w) ++ visited
    ∧ head (visited ++ [url request']) = Some (url input).
Proof.
  revert input init extra w.
  induction pre as [|hop pre IH]; intros input init extra w Hchain.
  - simpl in Hchain. injection Hchain as <- <- <- <-.
    exists []. by rewrite !app_nil_r.
  - cbn [chain] in Hchain.
    destruct (nextAttempt hop session input init extra w)
      as [[[[request1 init1] extra1] w1]|] eqn:Hnext; [|done].
    apply IH in Hchain as (visited & Hlen & Hvisited & Hsent & _).
    assert (sentUrls (effects w1) = sentUrls (effects w) ++ [url input]
            ∧ redirected extra1 = redirected extra ++ [url input])
      as [Hsent1 Hvisited1].
    { apply nextAttempt_Some in Hnext
        as (setup & w0 & res & l & Hsetup & _ & Hhandled & _ & _ & ->).
      apply onResponse_Recurse_inv in Hhandled as (_ & -> & _).
      pose proof (setupFetch_world _ _ _ _ _ _ _ _ Hsetup)
        as (_ & Hsent0 & _).
      split; [|done]. rewrite storeCookies_effects. simpl.
      by rewrite <- app_assoc, sentUrls_app, Hsent0. }
    exists (url input :: visited). split_and!.
    + simpl. by rewrite Hlen.
    + rewrite Hvisited, Hvisited1. by rewrite <- app_assoc.
    + rewrite Hsent, Hsent1. by rewrite <- app_assoc.
    + done.
Qed.

(** X2: where a chain stands after following some redirects, the list of
    visited URLs it carries has grown by exactly the URLs the requests of
    the chain were sent to, in the order they were sent, one per attempt,
    the first of them the URL of the call; and the request at hand still
    has the method and the redirect policy of the call. *)
Theorem visited_list_is_the_requests_sent (pre : list Hop) session input init
    extra w request' init' extra' w' :
  chain pre session input init extra w = Some (request', init', extra', w') →
  ∃ visited : list string,
    length visited = length pre
    ∧ redirected extra' = redirected extra ++ visited
    ∧ sentUrls (effects w') = sentUrls (effects w) ++ visited
    ∧ head (visited ++ [url request']) = Some (url input)
    ∧ method request' = method input
    ∧ redirect request' = redirect input.
Proof.
  intros Hchain.
  destruct (chain_visited _ _ _ _ _ _ _ _ _ _ Hchain)
    as (visited & Hlen & Hvisited & Hsent & Hhead).
  destruct (chain_invariants _ _ _ _ _ _ _ _ _ _ Hchain)
    as (Hpolicy & Hmethod & _).
  by exists visited.
Qed.

Lemma onResponse_Reject_not_loop session request init extra setup res
    (aborted : bool) w e w' :
  onResponse session request init extra setup res aborted w = (Reject e, w') →
  ∀ urls, e ≠ ERedirectionLoop urls.
Proof.
  unfold onResponse. destruct (signal init && aborted); [done|].
  destruct (parseLocation _ _) as [location|e0] eqn:Hloc.
  - intros [= Hpolicy _] urls ->. unfold redirectPolicy in Hpolicy.
    repeat (match type of Hpolicy with
            | context [if ?b then _ else _] => destruct b
            | context [match ?o with Some _ => _ | None => _ end] =>
                destruct o
            end; try done).
  - intros [= <- _] urls ->. unfold parseLocation in Hloc.
    destruct (resHeaders res !! HTTP1_HEADER_LOCATION) as [[l|l]|];
      try done.
    by destruct (resolveUrl l (url request)).
Qed.

(** A redirection-loop error comes from the loop check of the attempt a
    followed chain has arrived at, and that attempt has done nothing. *)
Lemma fetchImpl_loop_error (script : list Hop) session input init extra w
    (urls : list string) wEnd :
  fetchImpl script session input init extra w
  = (Rejected (ERedirectionLoop urls), wEnd) →
  ∃ pre hop post request' init' extra' w',
    script = pre ++ hop :: post
    ∧ chain pre session input init extra w
      = Some (request', init', extra', w')
    ∧ ensureNotCircularRedirection (redirected extra')
      = Throw (ERedirectionLoop urls)
    ∧ cleanedUp w' wEnd.
Proof.
  revert input init extra w wEnd.
  induction script as [|hop rest IH]; intros input init extra w wEnd Hrun;
    [done|].
  cbn [fetchImpl] in Hrun.
  destruct (setupFetch hop session input init extra w)
    as [[setup|e] w1] eqn:Hsetup.
  - destruct (winner hop) as [| |ev|] eqn:Hwinner; [| | |done].
    + by destruct (signalPromise setup).
    + by destruct (timeoutInfo setup) as [[[id|]]|].
    + destruct ev as [e| | |status| | |res]; try done.
      destruct (onResponse _ _ _ _ _ _ _ _) as [handled w4] eqn:Hhandled.
      destruct handled as [|r0|e|request1 init1 extra1]; try done.
      * injection Hrun as -> _.
        by apply onResponse_Reject_not_loop with (urls := urls) in Hhandled.
      * assert (nextAttempt hop session input init extra w
                = Some (request1, init1, extra1, w4)) as Hnext
          by (unfold nextAttempt; by rewrite Hsetup, Hwinner, Hhandled).
        destruct (fetchImpl rest session request1 init1 extra1 w4)
          as [[r1|e|] w5] eqn:Hinner; try done;
          [|by destruct (timeoutInfo setup) as [[[id|]]|],
                 (timerFiresWhileFollowing hop)].
        injection Hrun as -> <-.
        apply IH in Hinner
          as (pre & hop' & post & request' & init' & extra' & w' & ->
              & Hchain & Hloop & Hclean).
        exists (hop :: pre), hop', post, request', init', extra', w'.
        split_and!; try done.
        -- cbn [chain]. by rewrite Hnext.
        -- eapply cleanedUp_trans; [exact Hclean|].
           by exists [(timeoutInfo setup, signal init)].
  - injection Hrun as -> <-.
    exists [], hop, rest, input, init, extra, w. split_and!; try done.
    + unfold setupFetch in Hsetup.
      destruct (ensureNotCircularRedirection _) as [[]|e]; [|congruence].
      destruct (parseUrl _); [|done].
      destruct (setupTimeout _ _ w) as [[info|e] w0] eqn:Htimeout.
      * by destruct (signal init && abortedAtSetup hop).
      * injection Hsetup as -> _. unfold setupTimeout in Htimeout.
        destruct (computeTimeoutAt _ _ _); [|done].
        destruct (negb _); [done|]. by destruct (bool_decide _).
    + unfold setupFetch in Hsetup.
      destruct (ensureNotCircularRedirection _) as [[]|e];
        [|by injection Hsetup as _ ->; exists []].
      destruct (parseUrl _); [|done].
      destruct (setupTimeout _ _ w) as [[info|e] w0] eqn:Htimeout.
      * by destruct (signal init && abortedAtSetup hop).
      * injection Hsetup as -> _. unfold setupTimeout in Htimeout.
        destruct (computeTimeoutAt _ _ _); [|done].
        destruct (negb _); [done|]. by destruct (bool_decide _).
Qed.

(** X4: when a call through [fetch] fails with the redirection-loop error,
    the requests it has sent went, in order, to some URLs, then to a URL
    [current], then to further URLs, then to [current] again; nothing was
    sent after that second request; and the error carries [current]
    followed by the URLs between its two requests. *)
Theorem loop_error_names_the_cycle (script : list Hop) session input init w
    (urls : list string) wEnd :
  fetch script session input init w
  = (Rejected (ERedirectionLoop urls), wEnd) →
  ∃ before current rest,
    sentUrls (effects wEnd)
    = sentUrls (effects w) ++ before ++ current :: rest ++ [current]
    ∧ (current ∉ before)
    ∧ urls = current :: rest
    ∧ head (before ++ [current]) = Some (url input).
Proof.
  unfold fetch. intros Hrun.
  apply fetchImpl_loop_error in Hrun
    as (pre & hop & post & request' & init' & extra' & w' & _
        & Hchain & Hloop & Hclean).
  apply chain_visited in Hchain as (visited & _ & Hvisited & Hsent & Hhead).
  simpl in Hvisited. rewrite Hvisited in Hloop.
  apply ensureNotCircularRedirection_Throw_inv in Hloop
    as (before & current & rest & -> & Hbefore & [= ->]).
  exists before, current, rest. split_and!; try done.
  - by rewrite (cleanedUp_sentUrls _ _ Hclean).
  - rewrite <- app_assoc in Hhead. simpl in Hhead.
    destruct before; simpl in *; done.
Qed.

(** The world an attempt has made when its response is handled. *)
Lemma fetchImpl_response hop (rest : list Hop) session input init extra w
    setup w1 res :
  setupFetch hop session input init extra w = (Normal setup, w1) →
  winner hop = TransportSettles (OnResponse res) →
  fetchImpl (hop :: rest) session input init extra w =
  match onResponse session input init extra setup res (abortedAtResponse hop)
          (addEffect (RaceStarted (participants setup))
             (addEffect (Sent (url input) (headersToSend setup)) w1)) with
  | (Dropped, w4) =>
      (Rejected ESignalAborted, cleanup (timeoutInfo setup) (signal init) w4)
  | (Resolve r, w4) =>
      (Resolved r, cleanup (timeoutInfo setup) (signal init) w4)
  | (Reject e, w4) =>
      (Rejected e, cleanup (timeoutInfo setup) (signal init) w4)
  | (Recurse request' init' extra', w4) =>
      match fetchImpl rest session request' init' extra' w4 with
      | (Pending, w5) =>
          match timeoutInfo setup with
          | Some {| timerId := Some id |} =>
              if timerFiresWhileFollowing hop
              then (Rejected EDeadline,
                    cleanup (Some {| timerId := None |}) (signal init)
                      (fireTimer id w5))
              else (Pending, w5)
          | _ => (Pending, w5)
          end
      | (settled, w5) =>
          (settled, cleanup (timeoutInfo setup) (signal init) w5)
      end
  end.
Proof. intros Hsetup Hwinner. cbn [fetchImpl]. by rewrite Hsetup, Hwinner. Qed.

Lemma sentUrls_after_send hop session input init extra w setup w1
    (hs : gmap string HeaderValue) (u : string) info (sg : bool) :
  setupFetch hop session input init extra w = (Normal setup, w1) →
  sentUrls
    (effects
       (cleanup info sg
          (storeCookies hs u
             (addEffect (RaceStarted (participants setup))
                (addEffect (Sent (url input) (headersToSend setup)) w1)))))
  = sentUrls (effects w) ++ [url input].
Proof.
  intros Hsetup.
  pose proof (setupFetch_world _ _ _ _ _ _ _ _ Hsetup) as (_ & Hsent & _).
  rewrite cleanup_sentUrls, storeCookies_effects. simpl.
  by rewrite <- app_assoc, sentUrls_app, Hsent.
Qed.

(** X5: under the policy [error], a response with a redirect status and a
    location that resolves to a non-empty URL rejects the call with
    [makeRedirectionError( location )], whatever the method; the response's
    cookies are stored first, cleanup runs, and no further request is
    sent. *)
Theorem redirect_under_error_policy hop (rest : list Hop) session input init
    extra w setup w1 res location :
  setupFetch hop session input init extra w = (Normal setup, w1) →
  winner hop = TransportSettles (OnResponse res) →
  signal init && abortedAtResponse hop = false →
  redirect input = error →
  isRedirectStatus (statusCode res) = true →
  parseLocation (resHeaders res !! HTTP1_HEADER_LOCATION) (url input)
  = Normal (Some location) →
  location ≠ "" →
  ∃ wEnd,
    fetchImpl (hop :: rest) session input init extra w
    = (Rejected (makeRedirectionError (Some location)), wEnd)
    ∧ wEnd =
        cleanup (timeoutInfo setup) (signal init)
          (storeCookies (resHeaders res) (url input)
             (addEffect (RaceStarted (participants setup))
                (addEffect (Sent (url input) (headersToSend setup)) w1)))
    ∧ sentUrls (effects wEnd) = sentUrls (effects w) ++ [url input]
    ∧ jar wEnd
      = jar (storeCookies (resHeaders res) (url input) w).
Proof.
  intros Hsetup Hwinner Hguard Hpolicy Hstatus Hloc Hne.
  eexists. split_and!; [|reflexivity| |].
  - rewrite (fetchImpl_response _ _ _ _ _ _ _ _ _ _ Hsetup Hwinner).
    rewrite (onResponse_handled _ _ _ _ _ _ _ _ _ Hguard Hloc).
    unfold redirectPolicy. rewrite Hstatus, Hpolicy. simpl.
    by rewrite bool_decide_false.
  - by eapply sentUrls_after_send.
  - rewrite cleanup_jar, !storeCookies_jar. simpl.
    by destruct (setupFetch_world _ _ _ _ _ _ _ _ Hsetup) as (-> & _).
Qed.

(** X6: a response whose status is not a redirect status, and, under the
    policy [manual], also a redirect with a non-empty resolved location,
    resolves the call with a stream response: the response's status and
    status text, the request's URL and integrity, the session's decoders,
    HTTP version 1, and the response's headers without set-cookie and
    set-cookie2 (the location header stays); one request was sent, and the
    rest of the script is not touched. *)
Theorem terminal_response hop (rest : list Hop) session input init extra w
    setup w1 res location :
  setupFetch hop session input init extra w = (Normal setup, w1) →
  winner hop = TransportSettles (OnResponse res) →
  signal init && abortedAtResponse hop = false →
  parseLocation (resHeaders res !! HTTP1_HEADER_LOCATION) (url input)
  = Normal location →
  isRedirectStatus (statusCode res) = false
  ∨ (redirect input = manual ∧ truthyStr location = true) →
  ∃ r wEnd,
    fetchImpl (hop :: rest) session input init extra w
    = (Resolved (Streamed r), wEnd)
    ∧ responseStatus r = statusCode res
    ∧ responseStatusText r = statusMessage res
    ∧ responseUrl r = url input
    ∧ responseIntegrity r = integrity input
    ∧ responseDecoders r = contentDecoders session
    ∧ responseHttpVersion r = 1%Z
    ∧ responseHeaders r = stripCookieHeaders (resHeaders res)
    ∧ responseHeaders r !! HTTP1_HEADER_LOCATION
      = resHeaders res !! HTTP1_HEADER_LOCATION
    ∧ sentUrls (effects wEnd) = sentUrls (effects w) ++ [url input].
Proof.
  intros Hsetup Hwinner Hguard Hloc Hterminal.
  rewrite (fetchImpl_response _ _ _ _ _ _ _ _ _ _ Hsetup Hwinner).
  rewrite (onResponse_handled _ _ _ _ _ _ _ _ _ Hguard Hloc).
  assert (∃ r,
    redirectPolicy input init extra setup session res
      (stripCookieHeaders (resHeaders res)) location = Resolve (Streamed r)
    ∧ responseStatus r = statusCode res
    ∧ responseStatusText r = statusMessage res
    ∧ responseUrl r = url input
    ∧ responseIntegrity r = integrity input
    ∧ responseDecoders r = contentDecoders session
    ∧ responseHttpVersion r = 1%Z
    ∧ responseHeaders r = stripCookieHeaders (resHeaders res))
    as (r & -> & Hr).
  { unfold redirectPolicy.
    destruct Hterminal as [Hstatus|[Hmanual Htruthy]].
    - rewrite Hstatus. simpl. by eexists.
    - rewrite Htruthy, Hmanual. rewrite andb_false_r.
      rewrite bool_decide_true by done. rewrite orb_true_r. by eexists. }
  destruct Hr as (? & ? & ? & ? & ? & ? & Hheaders).
  exists r. eexists. split_and!; try done.
  - rewrite Hheaders, stripCookieHeaders_lookup.
    by rewrite bool_decide_false by (intros [?|?]; done).
  - by eapply sentUrls_after_send.
Qed.

(** X7: when the request's event that settles the attempt is not a
    response, the attempt ends at once: "error" rejects with what the event
    carries, "aborted" with an [AbortError], "timeout" with a
    [TimeoutError], "continue" and "upgrade" with a plain error, and
    "information" resolves with a body-less response of the event's status;
    in every case one request was sent, the cookie jar is as before, cleanup
    has run and the rest of the script is not touched. *)
Theorem other_events_settle_at_once hop (rest : list Hop) session input init
    extra w setup w1 (ev : TransportEvent) :
  setupFetch hop session input init extra w = (Normal setup, w1) →
  winner hop = TransportSettles ev →
  (∀ res, ev ≠ OnResponse res) →
  ∃ settled wEnd,
    fetchImpl (hop :: rest) session input init extra w = (settled, wEnd)
    ∧ settled =
        match ev with
        | OnError e => Rejected (ETransport e)
        | OnAborted => Rejected makeAbortedError
        | OnContinue => Rejected make100Error
        | OnInformation status => Resolved (PlainResponse status)
        | OnTimeout => Rejected makeTimeoutError
        | OnUpgrade => Rejected EUpgrade
        | OnResponse _ => Pending
        end
    ∧ errorKind makeAbortedError = AbortError
    ∧ errorKind makeTimeoutError = TimeoutError
    ∧ errorKind make100Error = PlainError
    ∧ wEnd =
        cleanup (timeoutInfo setup) (signal init)
          (addEffect (RaceStarted (participants setup))
             (addEffect (Sent (url input) (headersToSend setup)) w1))
    ∧ jar wEnd = jar w
    ∧ sentUrls (effects wEnd) = sentUrls (effects w) ++ [url input].
Proof.
  intros Hsetup Hwinner Hother.
  pose proof (setupFetch_world _ _ _ _ _ _ _ _ Hsetup) as (Hjar & Hsent & _).
  eexists _, _. split_and!; [|reflexivity|done..|reflexivity| |].
  - cbn [fetchImpl]. rewrite Hsetup, Hwinner.
    destruct ev; try reflexivity. by destruct (Hother res).
  - by rewrite cleanup_jar.
  - rewrite cleanup_sentUrls. simpl.
    by rewrite <- app_assoc, sentUrls_app, Hsent.
Qed.

(* ===================================================================== *)
(** * Timers, the listener and the jar along a whole call *)
(* ===================================================================== *)

Lemma storeCookies_timers (hs : gmap string HeaderValue) (u : string) w :
  timers (storeCookies hs u w) = timers w
  ∧ onabort (storeCookies hs u w) = onabort w.
Proof. unfold storeCookies. by destruct (truthy _). Qed.

Lemma onResponse_world session request init extra setup res (aborted : bool)
    w handled w' :
  onResponse session request init extra setup res aborted w = (handled, w') →
  timers w' = timers w
  ∧ onabort w' = onabort w
  ∧ (w' = w ∨ w' = storeCookies (resHeaders res) (url request) w).
Proof.
  unfold onResponse. destruct (signal init && aborted);
    [intros [= _ <-]; auto|].
  destruct (parseLocation _ _); intros [= _ <-]; [|auto].
  destruct (storeCookies_timers (resHeaders res) (url request) w)
    as [-> ->]. auto.
Qed.

(** The errors the handler of "response" rejects with. *)
Lemma onResponse_Reject_inv session request init extra setup res
    (aborted : bool) w e w' :
  onResponse session request init extra setup res aborted w = (Reject e, w') →
  e = EInvalidUrl ∨ e = EIllegalRedirect
  ∨ (∃ location, e = ERedirection location)
  ∨ (∃ location m, e = ERedirectionMethod location m).
Proof.
  unfold onResponse. destruct (signal init && aborted); [done|].
  destruct (parseLocation _ _) as [location|e0] eqn:Hloc.
  - intros [= Hpolicy _]. unfold redirectPolicy in Hpolicy.
    repeat (match type of Hpolicy with
            | context [if ?b then _ else _] => destruct b
            | context [match ?o with Some _ => _ | None => _ end] =>
                destruct o
            end; try done);
      injection Hpolicy as <-; eauto 10.
  - intros [= <- _]. unfold parseLocation in Hloc.
    destruct (resHeaders res !! HTTP1_HEADER_LOCATION) as [[l|l]|];
      try done.
    destruct (resolveUrl l (url request)); [done|].
    injection Hloc as <-. auto.
Qed.

(** The timers and the listener after a setup that succeeded. *)
Lemma setupFetch_Normal_resources hop session request init extra w setup w1 :
  setupFetch hop session request init extra w = (Normal setup, w1) →
  onabort w1 = (if signal init then true else onabort w)
  ∧ ((timeoutInfo setup = None ∧ timers w1 = timers w)
     ∨ (timeoutInfo setup = Some {| timerId := Some (length (timers w)) |}
        ∧ timers w1 = timers w ++ [Armed])).
Proof.
  intros Hsetup. apply setupFetch_Normal in Hsetup
    as (_ & _ & parts & info & w0 & _ & Htimeout & -> & ->).
  cbn [timeoutInfo].
  assert (onabort w0 = onabort w
          ∧ ((info = None ∧ timers w0 = timers w)
             ∨ (info = Some {| timerId := Some (length (timers w)) |}
                ∧ timers w0 = timers w ++ [Armed]))) as [Hon Hinfo].
  { unfold setupTimeout in Htimeout.
    destruct (computeTimeoutAt _ _ _) as [t|];
      [|injection Htimeout as <- <-; auto].
    destruct (negb _); [injection Htimeout as <- <-; auto|].
    destruct (bool_decide _); [done|].
    injection Htimeout as <- <-. simpl. auto. }
  destruct (signal init); simpl; by rewrite ?Hon.
Qed.

(** A setup that fails leaves the world as it was, unless it fails on the
    signal. *)
Lemma setupFetch_Throw_world hop session request init extra w e w1 :
  setupFetch hop session request init extra w = (Throw e, w1) →
  (w1 = w ∧ e ≠ ESignalAborted)
  ∨ (e = ESignalAborted ∧ signal init && abortedAtSetup hop = true).
Proof.
  unfold setupFetch.
  destruct (ensureNotCircularRedirection _) as [[]|e0] eqn:Hloop.
  - destruct (parseUrl _); [|intros [= <- <-]; by left].
    destruct (setupTimeout _ _ w) as [[info|e0] w0] eqn:Htimeout.
    + destruct (signal init && abortedAtSetup hop); [|done].
      intros [= <- _]. by right.
    + intros [= <- <-]. left. unfold setupTimeout in Htimeout.
      destruct (computeTimeoutAt _ _ _); [|done].
      destruct (negb _); [done|].
      destruct (bool_decide _); [|done]. by injection Htimeout as <- <-.
  - intros [= <- <-]. left. split; [done|].
    apply ensureNotCircularRedirection_Throw_inv in Hloop
      as (? & ? & ? & _ & _ & ->). done.
Qed.

Lemma cleanup_pending info (sg : bool) w (i : nat) :
  timers (cleanup info sg w) !! i = Some Armed →
  timers w !! i = Some Armed ∧ info ≠ Some {| timerId := Some i |}.
Proof.
  assert (timers (cleanup info sg w)
          = timers (match info with
                    | Some ti => clear ti w
                    | None => w
                    end)) as ->.
  { unfold cleanup. destruct sg; [apply detachListener_timers|done]. }
  destruct info as [[[id|]]|]; simpl; try (intros Hi; split; [done|congruence]).
  unfold clear, clearTimeout. simpl.
  destruct (timers w !! id) as [status|] eqn:Hid.
  - destruct status; simpl; try (intros Hi; split; [done|congruence]).
    destruct (decide (i = id)) as [->|Hne].
    + rewrite list_lookup_insert_eq; [done|]. by eapply lookup_lt_Some.
    + rewrite list_lookup_insert_ne by done. intros Hi.
      split; [done|congruence].
  - intros Hi. split; [done|congruence].
Qed.

Lemma cleanup_onabort_true info (sg : bool) w :
  onabort (cleanup info sg w) = true → onabort w = true ∧ sg = false.
Proof.
  destruct sg; [by rewrite cleanup_onabort|].
  unfold cleanup, clear, clearTimeout.
  destruct info as [[[id|]]|]; simpl; try done.
  by destruct (timers w !! id) as [[]|].
Qed.

(** A timer that is pending after the setup and is not the attempt's own
    was pending before. *)
Lemma setup_pending hop session request init extra w setup w1 (i : nat) :
  setupFetch hop session request init extra w = (Normal setup, w1) →
  timers w1 !! i = Some Armed →
  timeoutInfo setup ≠ Some {| timerId := Some i |} →
  timers w !! i = Some Armed.
Proof.
  intros Hsetup Hi Hown.
  apply setupFetch_Normal_resources in Hsetup
    as (_ & [[_ Htimers]|[Hinfo Htimers]]); rewrite Htimers in Hi; [done|].
  destruct (decide (i = length (timers w))) as [->|Hne]; [congruence|].
  apply lookup_app_Some in Hi as [Hi|[Hge Hi]]; [done|].
  destruct (i - length (timers w)) eqn:Hdiff; [lia|done].
Qed.

(** A setup that fails leaves the listener slot as it was. *)
Lemma setupFetch_Throw_onabort hop session request init extra w e w1 :
  setupFetch hop session request init extra w = (Throw e, w1) →
  onabort w1 = onabort w.
Proof.
  unfold setupFetch.
  destruct (ensureNotCircularRedirection _) as [[]|e0];
    [|by intros [= _ <-]].
  destruct (parseUrl _); [|by intros [= _ <-]].
  destruct (setupTimeout _ _ w) as [[info|e0] w0] eqn:Htimeout;
    apply setupTimeout_world in Htimeout as (_ & Hon & _).
  - destruct (signal init && abortedAtSetup hop); [|done].
    by intros [= _ <-].
  - by intros [= _ <-].
Qed.

(** A listener that is attached after a call was attached before it,
    unless the call is still pending and has a signal. *)
Lemma fetchImpl_listener (script : list Hop) session input init extra w
    settled w' :
  fetchImpl script session input init extra w = (settled, w') →
  onabort w' = true →
  onabort w = true ∨ (settled = Pending ∧ signal init = true).
Proof.
  revert input init extra w settled w'.
  induction script as [|hop rest IH];
    intros input init extra w settled w' Hrun;
    [injection Hrun as <- <-; auto|].
  cbn [fetchImpl] in Hrun.
  destruct (setupFetch hop session input init extra w)
    as [[setup|e] w1] eqn:Hsetup.
  - pose proof (setupFetch_Normal_resources _ _ _ _ _ _ _ _ Hsetup)
      as [Hon _].
    (* what any cleanup of this attempt leaves *)
    assert (∀ info w9 (s : Settlement),
      (onabort w9 = true → onabort w1 = true) →
      onabort (cleanup info (signal init) w9) = true →
      onabort w = true ∨ (s = Pending ∧ signal init = true)) as Hcleanup.
    { intros info w9 s Hon9 Hi. left.
      apply cleanup_onabort_true in Hi as [Hi Hsg].
      apply Hon9 in Hi. by rewrite Hon, Hsg in Hi. }
    (* what an attempt still in its race leaves *)
    assert (∀ w9,
      (onabort w9 = true → onabort w1 = true) →
      onabort w9 = true →
      onabort w = true ∨ (Pending = Pending ∧ signal init = true))
      as Hpending.
    { intros w9 Hon9 Hi. apply Hon9 in Hi. rewrite Hon in Hi.
      destruct (signal init); auto. }
    destruct (winner hop) as [| |ev|] eqn:Hwinner.
    + destruct (signalPromise setup); injection Hrun as <- <-.
      * by apply Hcleanup.
      * by apply Hpending.
    + destruct (timeoutInfo setup) as [[[id|]]|] eqn:Hinfo;
        injection Hrun as <- <-; try (by apply Hpending).
      by apply Hcleanup.
    + destruct ev as [e| | |status| | |res];
        try (injection Hrun as _ <-; by apply Hcleanup).
      destruct (onResponse _ _ _ _ _ _ _ _) as [handled w4] eqn:Hhandled.
      pose proof (onResponse_world _ _ _ _ _ _ _ _ _ _ Hhandled)
        as (_ & Hon4 & _).
      simpl in Hon4.
      destruct handled as [|r0|e|request1 init1 extra1];
        try (injection Hrun as _ <-; apply Hcleanup; by rewrite Hon4).
      destruct (fetchImpl rest session request1 init1 extra1 w4)
        as [settled5 w5] eqn:Hinner.
      assert (signal init1 = signal init) as Hsignal1.
      { apply onResponse_Recurse in Hhandled as (_ & l & _ & -> & _).
        done. }
      pose proof (IH _ _ _ _ _ _ Hinner) as Hon5.
      rewrite Hon4, Hsignal1 in Hon5.
      destruct settled5 as [r1|e1|].
      * injection Hrun as _ <-. apply Hcleanup.
        intros Hi. by destruct (Hon5 Hi) as [?|[? _]].
      * injection Hrun as _ <-. apply Hcleanup.
        intros Hi. by destruct (Hon5 Hi) as [?|[? _]].
      * destruct (timeoutInfo setup) as [[[id|]]|] eqn:Hinfo;
          [destruct (timerFiresWhileFollowing hop)|..];
          injection Hrun as <- <-.
        -- intros Hi. left.
           apply cleanup_onabort_true in Hi as [Hi Hsg]. simpl in Hi.
           destruct (Hon5 Hi) as [Hi1|[_ Hsg1]]; [|congruence].
           by rewrite Hon, Hsg in Hi1.
        -- intros Hi. destruct (Hon5 Hi) as [Hi1|[_ Hsg1]]; [|auto].
           rewrite Hon in Hi1. destruct (signal init); auto.
        -- intros Hi. destruct (Hon5 Hi) as [Hi1|[_ Hsg1]]; [|auto].
           rewrite Hon in Hi1. destruct (signal init); auto.
        -- intros Hi. destruct (Hon5 Hi) as [Hi1|[_ Hsg1]]; [|auto].
           rewrite Hon in Hi1. destruct (signal init); auto.
    + injection Hrun as <- <-. by apply Hpending.
  - injection Hrun as _ <-.
    rewrite (setupFetch_Throw_onabort _ _ _ _ _ _ _ _ Hsetup). auto.
Qed.

(** Once a call has settled, the only timers still pending were pending
    before it, provided its setups did not fail on the signal and no timer
    of an attempt fired while the call that attempt made was pending. *)
Lemma fetchImpl_timers (script : list Hop) session input init extra w
    settled w' :
  fetchImpl script session input init extra w = (settled, w') →
  settled ≠ Pending →
  signal init = false ∨ (∀ hop, hop ∈ script → abortedAtSetup hop = false) →
  (∀ hop, hop ∈ script → timerFiresWhileFollowing hop = false) →
  ∀ i, timers w' !! i = Some Armed → timers w !! i = Some Armed.
Proof.
  revert input init extra w settled w'.
  induction script as [|hop rest IH];
    intros input init extra w settled w' Hrun Hsettled Hsignal Hflags;
    [by injection Hrun as <- _|].
  cbn [fetchImpl] in Hrun.
  destruct (setupFetch hop session input init extra w)
    as [[setup|e] w1] eqn:Hsetup.
  - (* what any cleanup of this attempt leaves *)
    assert (∀ w9,
      timers w9 = timers w1 ∨
        (∀ i, timers w9 !! i = Some Armed → timers w1 !! i = Some Armed) →
      ∀ i, timers (cleanup (timeoutInfo setup) (signal init) w9) !! i
           = Some Armed → timers w !! i = Some Armed) as Hcleanup.
    { intros w9 Htimers i Hi. apply cleanup_pending in Hi as [Hi Hown].
      eapply setup_pending; [exact Hsetup| |exact Hown].
      destruct Htimers as [<-|Hsub]; auto. }
    destruct (winner hop) as [| |ev|] eqn:Hwinner;
      [| | |by injection Hrun as <- _].
    + destruct (signalPromise setup); [|by injection Hrun as <- _].
      injection Hrun as _ <-. apply Hcleanup; auto.
    + destruct (timeoutInfo setup) as [[[id|]]|] eqn:Hinfo;
        try by injection Hrun as <- _.
      injection Hrun as _ <-.
      intros i Hi. apply cleanup_pending in Hi as [Hi _].
      simpl in Hi. destruct (decide (i = id)) as [->|Hne].
      * destruct (decide (id < length (timers w1))) as [Hlt|Hge].
        -- by rewrite list_lookup_insert_eq in Hi.
        -- rewrite list_insert_ge in Hi by lia.
           apply lookup_lt_Some in Hi. lia.
      * rewrite list_lookup_insert_ne in Hi by done.
        eapply setup_pending; [exact Hsetup|exact Hi|].
        rewrite Hinfo. congruence.
    + destruct ev as [e| | |status| | |res];
        try (injection Hrun as _ <-; apply Hcleanup; auto).
      destruct (onResponse _ _ _ _ _ _ _ _) as [handled w4] eqn:Hhandled.
      pose proof (onResponse_world _ _ _ _ _ _ _ _ _ _ Hhandled)
        as (Htimers4 & _ & _).
      simpl in Htimers4.
      destruct handled as [|r0|e|request1 init1 extra1];
        try (injection Hrun as _ <-; apply Hcleanup; by left).
      destruct (fetchImpl rest session request1 init1 extra1 w4)
        as [settled5 w5] eqn:Hinner.
      assert (signal init1 = signal init) as Hsignal1.
      { apply onResponse_Recurse in Hhandled as (_ & l & _ & -> & _).
        done. }
      destruct settled5 as [r1|e1|];
        [| |rewrite (Hflags hop) in Hrun by (by left);
            by destruct (timeoutInfo setup) as [[[id|]]|];
              injection Hrun as <- _];
        injection Hrun as _ <-;
        (pose proof (IH _ _ _ _ _ _ Hinner) as Hsub5;
         apply Hcleanup; right; intros i Hi; rewrite <- Htimers4;
         apply Hsub5;
         [done
         |rewrite Hsignal1; destruct Hsignal as [?|Hall];
            [by left|right; intros h Hh; apply Hall; by right]
         |intros h Hh; apply Hflags; by right
         |done]).
  - injection Hrun as _ <-.
    apply setupFetch_Throw_world in Hsetup as [[-> _]|[_ Habort]]; [done|].
    exfalso. apply andb_true_iff in Habort as [Hsg Haborted].
    destruct Hsignal as [Hno|Hall]; [congruence|].
    rewrite Hall in Haborted; [done|by left].
Qed.

(** X8: when a call has settled, the listener it put on the signal is gone:
    a listener that is attached afterwards was attached before the call.
    Every timer it armed is released as well, so that a timer still pending
    afterwards was pending before the call, when no attempt of the call was
    set up with the signal already aborted and no attempt's timer fired
    while the call that followed its redirect was pending (the timers of
    the attempts further in are armed then, and stay so).  In particular
    such a call that starts with no pending timer ends with none. *)
Theorem settled_call_has_released_its_resources (script : list Hop) session
    input init extra w settled w' :
  fetchImpl script session input init extra w = (settled, w') →
  settled ≠ Pending →
  (onabort w' = true → onabort w = true)
  ∧ (signal init = false
     ∨ (∀ hop, hop ∈ script → abortedAtSetup hop = false) →
     (∀ hop, hop ∈ script → timerFiresWhileFollowing hop = false) →
     (∀ i, timers w' !! i = Some Armed → timers w !! i = Some Armed)
     ∧ ((∀ i, timers w !! i ≠ Some Armed) →
        ∀ i, timers w' !! i ≠ Some Armed)).
Proof.
  intros Hrun Hsettled. split.
  - intros Hon.
    by destruct (fetchImpl_listener _ _ _ _ _ _ _ _ Hrun Hon) as [?|[? _]].
  - intros Hsignal Hflags.
    pose proof (fetchImpl_timers _ _ _ _ _ _ _ _ Hrun Hsettled Hsignal
                  Hflags) as Htimers.
    split; [done|]. intros Hnone i Hi. by apply (Hnone i), Htimers.
Qed.

Lemma cleanup_timers_None (sg : bool) w :
  timers (cleanup None sg w) = timers w.
Proof. unfold cleanup. destruct sg; [apply detachListener_timers|done]. Qed.

Lemma cleanup_onabort_unsignalled info w :
  onabort (cleanup info false w) = onabort w.
Proof.
  unfold cleanup, clear, clearTimeout.
  destruct info as [[[id|]]|]; simpl; try done.
  by destruct (timers w !! id) as [[]|].
Qed.

Lemma onResponse_Dropped_inv session request init extra setup res
    (aborted : bool) w w' :
  onResponse session request init extra setup res aborted w = (Dropped, w') →
  signal init = true ∧ aborted = true ∧ w' = w.
Proof.
  unfold onResponse. destruct (signal init && aborted) eqn:Hguard.
  - apply andb_true_iff in Hguard as [-> ->]. by intros [= <-].
  - destruct (parseLocation _ _); [|done]. intros [= Hpolicy _].
    by apply redirectPolicy_not_Dropped in Hpolicy.
Qed.

(** Without a deadline the setup arms nothing. *)
Lemma setupFetch_without_deadline hop session request init extra w c w1 :
  truthyNum (timeoutAt extra) = false → timeout init = None →
  setupFetch hop session request init extra w = (c, w1) →
  timers w1 = timers w
  ∧ c ≠ Throw EDeadline
  ∧ ∀ setup, c = Normal setup →
             timeoutInfo setup = None ∧ setupTimeoutAt setup = None.
Proof.
  intros Hextra Hinit. unfold setupFetch.
  assert (computeTimeoutAt extra init (clockAtDeadline hop) = None) as ->
    by (unfold computeTimeoutAt; by rewrite Hextra, Hinit).
  destruct (ensureNotCircularRedirection _) as [[]|e] eqn:Hloop.
  - destruct (parseUrl _); [|by intros [= <- <-]].
    simpl. destruct (signal init && abortedAtSetup hop);
      intros [= <- <-]; [done|].
    split_and!; [by destruct (signal init)|done|].
    by intros setup [= <-].
  - intros [= <- <-]. split_and!; [done| |done].
    apply ensureNotCircularRedirection_Throw_inv in Hloop
      as (? & ? & ? & _ & _ & ->). done.
Qed.

(** X9: a call that is given neither a timeout nor a deadline never arms a
    timer and never fails with the deadline's [TimeoutError], however long
    the chain of redirects gets: the host's timers are exactly as before. *)
Theorem without_timeout_no_timer (script : list Hop) session input init extra
    w settled w' :
  truthyNum (timeoutAt extra) = false →
  timeout init = None →
  fetchImpl script session input init extra w = (settled, w') →
  timers w' = timers w ∧ settled ≠ Rejected EDeadline.
Proof.
  revert input init extra w settled w'.
  induction script as [|hop rest IH];
    intros input init extra w settled w' Hextra Hinit Hrun;
    [by injection Hrun as <- <-|].
  cbn [fetchImpl] in Hrun.
  destruct (setupFetch hop session input init extra w)
    as [c w1] eqn:Hsetup.
  destruct (setupFetch_without_deadline _ _ _ _ _ _ _ _ Hextra Hinit Hsetup)
    as (Htimers & Hthrow & Hnormal).
  destruct c as [setup|e]; [|injection Hrun as <- <-; split; congruence].
  destruct (Hnormal setup eq_refl) as [Hinfo Hdeadline].
  rewrite Hinfo in Hrun.
  destruct (winner hop) as [| |ev|] eqn:Hwinner;
    [| | |by injection Hrun as <- <-].
  - destruct (signalPromise setup); injection Hrun as <- <-; [|done].
    by rewrite cleanup_timers_None.
  - by injection Hrun as <- <-.
  - destruct ev as [e| | |status| | |res];
      try (injection Hrun as <- <-; by rewrite cleanup_timers_None).
    destruct (onResponse _ _ _ _ _ _ _ _) as [handled w4] eqn:Hhandled.
    pose proof (onResponse_world _ _ _ _ _ _ _ _ _ _ Hhandled)
      as (Htimers4 & _). simpl in Htimers4.
    destruct handled as [|r0|e|request1 init1 extra1];
      try (injection Hrun as <- <-; rewrite cleanup_timers_None;
           split; [congruence|done]).
    + injection Hrun as <- <-. rewrite cleanup_timers_None.
      split; [congruence|].
      apply onResponse_Reject_inv in Hhandled
        as [->|[->|[[? ->]|(? & ? & ->)]]]; done.
    + apply onResponse_Recurse in Hhandled as (_ & l & _ & -> & ->).
      destruct (fetchImpl rest session _ _ _ w4)
        as [settled5 w5] eqn:Hinner.
      apply IH in Hinner as [Htimers5 Hsettled5];
        [|by rewrite Hdeadline|done].
      destruct settled5; injection Hrun as <- <-;
        rewrite ?cleanup_timers_None; split; congruence.
Qed.

(** X10: a call that is given no signal never fails with the signal's
    [AbortError] and never touches a listener slot: it is as it was. *)
Theorem without_signal_no_abort (script : list Hop) session input init extra
    w settled w' :
  signal init = false →
  fetchImpl script session input init extra w = (settled, w') →
  onabort w' = onabort w ∧ settled ≠ Rejected ESignalAborted.
Proof.
  revert input init extra w settled w'.
  induction script as [|hop rest IH];
    intros input init extra w settled w' Hsignal Hrun;
    [by injection Hrun as <- <-|].
  cbn [fetchImpl] in Hrun.
  destruct (setupFetch hop session input init extra w)
    as [[setup|e] w1] eqn:Hsetup.
  - pose proof (setupFetch_Normal_resources _ _ _ _ _ _ _ _ Hsetup)
      as [Hon _]. rewrite Hsignal in Hon.
    assert (signalPromise setup = false) as Hpromise.
    { apply setupFetch_Normal in Hsetup
        as (_ & _ & ? & ? & ? & _ & _ & _ & ->). done. }
    rewrite Hpromise in Hrun.
    destruct (winner hop) as [| |ev|] eqn:Hwinner;
      [| | |injection Hrun as <- <-; by rewrite <- Hon].
    + injection Hrun as <- <-. by rewrite <- Hon.
    + destruct (timeoutInfo setup) as [[[id|]]|];
        injection Hrun as <- <-; rewrite ?Hsignal, ?cleanup_onabort_unsignalled;
        by rewrite <- Hon.
    + destruct ev as [e| | |status| | |res];
        try (injection Hrun as <- <-; rewrite Hsignal, cleanup_onabort_unsignalled;
             by rewrite <- Hon).
      destruct (onResponse _ _ _ _ _ _ _ _) as [handled w4] eqn:Hhandled.
      pose proof (onResponse_world _ _ _ _ _ _ _ _ _ _ Hhandled)
        as (_ & Hon4 & _). simpl in Hon4.
      destruct handled as [|r0|e|request1 init1 extra1].
      * apply onResponse_Dropped_inv in Hhandled as (Hsupplied & _).
        congruence.
      * injection Hrun as <- <-. rewrite Hsignal, cleanup_onabort_unsignalled.
        split; congruence.
      * injection Hrun as <- <-. rewrite Hsignal, cleanup_onabort_unsignalled.
        split; [congruence|].
        apply onResponse_Reject_inv in Hhandled
          as [->|[->|[[? ->]|(? & ? & ->)]]]; done.
      * apply onResponse_Recurse in Hhandled as (_ & l & _ & -> & ->).
        destruct (fetchImpl rest session _ _ _ w4)
          as [settled5 w5] eqn:Hinner.
        apply IH in Hinner as [Hon5 Hsettled5]; [|done].
        destruct settled5;
          [| |destruct (timeoutInfo setup) as [[[id|]]|];
              [destruct (timerFiresWhileFollowing hop)|..]];
          injection Hrun as <- <-;
          rewrite ?Hsignal, ?cleanup_onabort_unsignalled; simpl;
          split; congruence.
  - injection Hrun as <- <-.
    apply setupFetch_Throw_world in Hsetup as [[-> Hne]|[_ Habort]].
    + split; congruence.
    + by rewrite Hsignal in Habort.
Qed.

(** X11: the engine writes to the cookie jar only what responses set: a
    call none of whose responses carries a set-cookie header leaves the jar
    exactly as it was, however it ends. *)
Theorem jar_changes_only_by_set_cookie (script : list Hop) session input init
    extra w settled w' :
  (∀ hop res, hop ∈ script →
              winner hop = TransportSettles (OnResponse res) →
              resHeaders res !! HTTP1_HEADER_SET_COOKIE = None) →
  fetchImpl script session input init extra w = (settled, w') →
  jar w' = jar w.
Proof.
  revert input init extra w settled w'.
  induction script as [|hop rest IH];
    intros input init extra w settled w' Hnone Hrun;
    [by injection Hrun as _ <-|].
  cbn [fetchImpl] in Hrun.
  destruct (setupFetch hop session input init extra w)
    as [c w1] eqn:Hsetup.
  pose proof (setupFetch_world _ _ _ _ _ _ _ _ Hsetup) as (Hjar & _).
  destruct c as [setup|e]; [|by injection Hrun as _ <-].
  destruct (winner hop) as [| |ev|] eqn:Hwinner;
    [| | |by injection Hrun as _ <-].
  - destruct (signalPromise setup); injection Hrun as _ <-;
      by rewrite ?cleanup_jar.
  - destruct (timeoutInfo setup) as [[[id|]]|];
      injection Hrun as _ <-; by rewrite ?cleanup_jar.
  - destruct ev as [e| | |status| | |res];
      try (injection Hrun as _ <-; by rewrite cleanup_jar).
    destruct (onResponse _ _ _ _ _ _ _ _) as [handled w4] eqn:Hhandled.
    assert (jar w4 = jar w) as Hjar4.
    { apply onResponse_world in Hhandled as (_ & _ & [->| ->]); [done|].
      rewrite storeCookies_jar.
      rewrite (Hnone hop res) by (by left || done). done. }
    destruct handled as [|r0|e|request1 init1 extra1];
      try (injection Hrun as _ <-; by rewrite cleanup_jar).
    destruct (fetchImpl rest session request1 init1 extra1 w4)
      as [settled5 w5] eqn:Hinner.
    apply IH in Hinner;
      [|intros h r Hh; apply Hnone; by right].
    destruct settled5;
      [| |destruct (timeoutInfo setup) as [[[id|]]|];
          [destruct (timerFiresWhileFollowing hop)|..]];
      injection Hrun as _ <-; rewrite ?cleanup_jar; simpl; congruence.
Qed.

(** X12: the cookies of a redirect response are in the jar before the
    follow-up request is assembled: the cookie header of the next attempt is
    built from the jar as the response left it, asked for the new URL, and
    is followed by the cookie header the request itself brought, which is
    carried along. *)
Theorem redirect_cookies_reach_the_next_request hop hop2 session input init
    extra w request' init' extra' w' setup2 w2 :
  nextAttempt hop session input init extra w
  = Some (request', init', extra', w') →
  setupFetch hop2 session request' init' extra' w' = (Normal setup2, w2) →
  ∃ res,
    winner hop = TransportSettles (OnResponse res)
    ∧ jar w' = jar (storeCookies (resHeaders res) (url input) w)
    ∧ headersToSend setup2 !! HTTP2_HEADER_COOKIE =
      match getCookies (jar (storeCookies (resHeaders res) (url input) w))
              (url request')
            ++ arrayify (HStr <$> get (headers input) HTTP2_HEADER_COOKIE)
      with
      | [] => None
      | c :: cs => Some (String.concat "; " (c :: cs))
      end.
Proof.
  intros Hnext Hsetup2.
  apply nextAttempt_Some in Hnext
    as (setup & w1 & res & l0 & Hsetup & Hwinner & Hhandled & _ & _ & _).
  apply onResponse_Recurse_inv in Hhandled
    as (_ & -> & _ & _ & _ & l & _ & _ & ->).
  pose proof (setupFetch_world _ _ _ _ _ _ _ _ Hsetup) as (Hjar & _).
  assert (jar (storeCookies (resHeaders res) (url input)
                 (addEffect (RaceStarted (participants setup))
                    (addEffect (Sent (url input) (headersToSend setup)) w1)))
          = jar (storeCookies (resHeaders res) (url input) w)) as Hjar'.
  { rewrite !storeCookies_jar. simpl. by rewrite Hjar. }
  exists res. split_and!; [done..|].
  apply setupFetch_Normal in Hsetup2
    as (_ & _ & parts & info & w0 & _ & _ & _ & ->).
  cbn [headersToSend]. rewrite assembleHeaders_cookie, Hjar'. done.
Qed.

(** X13: a timeout of zero or less leaves no time at all: the first attempt
    of such a call is rejected with the deadline's [TimeoutError] before
    anything is sent, the world untouched (given a clock that does not run
    backwards between the two readings, a list of visited URLs that passes
    the loop check, and a URL that parses). *)
Theorem non_positive_timeout_fails_at_once hop (rest : list Hop) session
    request init extra w (t : Z) :
  truthyNum (timeoutAt extra) = false →
  timeout init = Some t →
  (t ≤ 0)%Z →
  (clockAtDeadline hop ≤ clockAtSetup hop)%Z →
  (clockAtDeadline hop + t ≠ 0)%Z →
  ensureNotCircularRedirection (redirected extra) = Normal tt →
  is_Some (parseUrl (url request)) →
  fetchImpl (hop :: rest) session request init extra w
  = (Rejected EDeadline, w)
  ∧ errorKind EDeadline = TimeoutError.
Proof.
  intros Hextra Hinit Hle Hclock Hnz Hloop Hurl. split; [|done].
  apply (fetchImpl_elapsed _ _ _ _ _ _ _ (clockAtDeadline hop + t));
    try done; [|lia].
  unfold computeTimeoutAt. by rewrite Hextra, Hinit.
Qed.

(** X18: a response that is read when the signal is already aborted is
    ignored, whatever it holds: its cookies are not stored, its redirect is
    not followed, the call ends with the signal's [AbortError], cleanup has
    run, and the one request of the attempt is all that was sent. *)
Theorem late_response_is_ignored hop (rest : list Hop) session input init
    extra w setup w1 res :
  setupFetch hop session input init extra w = (Normal setup, w1) →
  winner hop = TransportSettles (OnResponse res) →
  signal init = true →
  abortedAtResponse hop = true →
  ∃ wEnd,
    fetchImpl (hop :: rest) session input init extra w
    = (Rejected ESignalAborted, wEnd)
    ∧ errorKind ESignalAborted = AbortError
    ∧ jar wEnd = jar w
    ∧ onabort wEnd = false
    ∧ sentUrls (effects wEnd) = sentUrls (effects w) ++ [url input].
Proof.
  intros Hsetup Hwinner Hsignal Haborted.
  pose proof (setupFetch_world _ _ _ _ _ _ _ _ Hsetup) as (Hjar & Hsent & _).
  rewrite (fetchImpl_response _ _ _ _ _ _ _ _ _ _ Hsetup Hwinner).
  rewrite Haborted, onResponse_dropped by done.
  eexists. split_and!; [reflexivity|done| | |].
  - by rewrite cleanup_jar.
  - rewrite Hsignal. apply cleanup_onabort.
  - rewrite cleanup_sentUrls. simpl.
    by rewrite <- app_assoc, sentUrls_app, Hsent.
Qed.

(** X19: a response whose location header is a string that does not
    resolve to a URL rejects the call with the [TypeError] of the URL
    constructor, whatever its status and whatever the redirect policy; the
    response's cookies are not stored. *)
Theorem unresolvable_location_rejects hop (rest : list Hop) session input
    init extra w setup w1 res (l : string) :
  setupFetch hop session input init extra w = (Normal setup, w1) →
  winner hop = TransportSettles (OnResponse res) →
  signal init && abortedAtResponse hop = false →
  resHeaders res !! HTTP1_HEADER_LOCATION = Some (HStr l) →
  resolveUrl l (url input) = None →
  ∃ wEnd,
    fetchImpl (hop :: rest) session input init extra w
    = (Rejected EInvalidUrl, wEnd)
    ∧ errorKind EInvalidUrl = TypeError
    ∧ jar wEnd = jar w
    ∧ sentUrls (effects wEnd) = sentUrls (effects w) ++ [url input].
Proof.
  intros Hsetup Hwinner Hguard Hloc Hresolve.
  pose proof (setupFetch_world _ _ _ _ _ _ _ _ Hsetup) as (Hjar & Hsent & _).
  rewrite (fetchImpl_response _ _ _ _ _ _ _ _ _ _ Hsetup Hwinner).
  unfold onResponse. rewrite Hguard, Hloc. cbn [parseLocation].
  rewrite Hresolve.
  eexists. split_and!; [reflexivity|done| |].
  - by rewrite cleanup_jar.
  - rewrite cleanup_sentUrls. simpl.
    by rewrite <- app_assoc, sentUrls_app, Hsent.
Qed.

End ChainFacts.

(* ===================================================================== *)
(** * More about header assembly *)
(* ===================================================================== *)

Lemma get_None_not_elem (headers : Headers) (key val : string) :
  get headers key = None → (key, val) ∉ headers.
Proof.
  induction headers as [|[k v] rest IH]; simpl; [set_solver|].
  case_bool_decide as Hk; [done|]. intros Hget Hin.
  apply elem_of_cons in Hin as [[= -> ->]|Hin]; [done|]. by apply IH.
Qed.

Lemma elem_has (headers : Headers) (key val : string) :
  (key, val) ∈ headers → has headers key = true.
Proof.
  intros Hin. destruct (has headers key) eqn:Hhas; [done|].
  apply get_None_has in Hhas. by apply get_None_not_elem with (val := val) in Hhas.
Qed.

Lemma copyHeaders_cons session (entry : string * string) (headers : Headers)
    (toSend : gmap string string) :
  copyHeaders session (entry :: headers) toSend
  = copyHeaders session headers (copyHeader session toSend entry).
Proof. done. Qed.

Lemma copyHeaders_app session (headers1 headers2 : Headers)
    (toSend : gmap string string) :
  copyHeaders session (headers1 ++ headers2) toSend
  = copyHeaders session headers2 (copyHeaders session headers1 toSend).
Proof. unfold copyHeaders, entries. apply foldl_app. Qed.

(** The name under which the copy loop sends a request header, if it
    sends it. *)
Lemma copyHeader_lookup session (toSend : gmap string string)
    (key val target : string) :
  copyHeader session toSend (key, val) !! target =
  if bool_decide (key = "host") && bool_decide (sessionProtocol session = http2)
  then (if bool_decide (target = HTTP2_HEADER_AUTHORITY) then Some val
        else toSend !! target)
  else if bool_decide (key = HTTP2_HEADER_COOKIE) then toSend !! target
  else if bool_decide (key = "__proto__") then toSend !! target
  else if bool_decide (target = key) then Some val
  else toSend !! target.
Proof.
  unfold copyHeader. destruct (_ && _).
  - case_bool_decide as Ht; [subst; apply lookup_insert_eq|].
    by rewrite lookup_insert_ne.
  - case_bool_decide as Hc; simpl; [done|].
    unfold assign. case_bool_decide as Hp; [done|].
    case_bool_decide as Ht; [subst; apply lookup_insert_eq|].
    by rewrite lookup_insert_ne.
Qed.

(** The copy loop leaves a name alone when no request header is sent
    under it. *)
Lemma copyHeaders_untouched session (headers : Headers)
    (toSend : gmap string string) (target : string) :
  (∀ key val, (key, val) ∈ headers →
     key ≠ target
     ∧ ¬ (key = "host" ∧ sessionProtocol session = http2
          ∧ target = HTTP2_HEADER_AUTHORITY)) →
  copyHeaders session headers toSend !! target = toSend !! target.
Proof.
  revert toSend. induction headers as [|[key val] rest IH];
    intros toSend Hall; [done|].
  rewrite copyHeaders_cons.
  rewrite IH by (intros k v Hin; apply (Hall k v); by right).
  destruct (Hall key val) as [Hne Hhost]; [by left|].
  rewrite copyHeader_lookup.
  rewrite (bool_decide_false (target = key)) by congruence.
  destruct (bool_decide (key = "host")
            && bool_decide (sessionProtocol session = http2)) eqn:Hrewrite.
  - apply andb_true_iff in Hrewrite as [Hk Hp].
    apply bool_decide_eq_true in Hk, Hp.
    case_bool_decide as Ht; [|done]. by destruct Hhost.
  - by destruct (bool_decide (key = HTTP2_HEADER_COOKIE)),
         (bool_decide (key = "__proto__")).
Qed.

Lemma withBodyFraming_lookup_explicit request (endStream : bool)
    (toSend : gmap string string) (key : string) :
  has (headers request) key = true →
  withBodyFraming request endStream toSend !! key = toSend !! key.
Proof.
  intros Hhas.
  destruct (decide (key = HTTP2_HEADER_CONTENT_LENGTH)) as [Hlen|Hlen];
    [|destruct (decide (key = HTTP2_HEADER_CONTENT_TYPE)) as [Htype|Htype];
      [|by apply withBodyFraming_lookup]];
    subst key; unfold withBodyFraming.
  - rewrite Hhas, !andb_false_r.
    destruct (_ && truthyStr _); [|done].
    destruct (bodyMime request); [|done]. by rewrite lookup_insert_ne.
  - unfold HTTP2_HEADER_CONTENT_TYPE in Hhas.
    rewrite Hhas, andb_false_r. simpl.
    destruct (_ && _); [|done].
    destruct (bodyLength request); [|done]. by rewrite lookup_insert_ne.
Qed.

Lemma initialHeaders_lookup_other session method parts acceptEnc
    (key : string) :
  key ∉ [HTTP2_HEADER_ACCEPT_ENCODING; HTTP2_HEADER_USER_AGENT;
         HTTP2_HEADER_ACCEPT; HTTP2_HEADER_PATH; HTTP2_HEADER_SCHEME;
         HTTP2_HEADER_METHOD] →
  initialHeaders session method parts acceptEnc !! key = None.
Proof.
  intros Hkey. unfold initialHeaders.
  rewrite !lookup_insert_ne by set_solver.
  destruct (sessionProtocol session); [done|].
  by rewrite !lookup_insert_ne by set_solver.
Qed.

(** What the copy loop leaves under the name of a header the request
    names once. *)
Lemma copyHeaders_verbatim session (headers : Headers)
    (toSend : gmap string string) (key val : string) :
  NoDup headers.*1 →
  (key, val) ∈ headers →
  key ≠ HTTP2_HEADER_COOKIE →
  key ≠ "__proto__" →
  sessionProtocol session = http1
  ∨ (key ≠ "host" ∧ key ≠ HTTP2_HEADER_AUTHORITY) →
  copyHeaders session headers toSend !! key = Some val.
Proof.
  intros Hnodup Hin Hcookie Hplain Hproto.
  apply list_elem_of_split in Hin as (before & after & ->).
  rewrite fmap_app, fmap_cons in Hnodup. simpl in Hnodup.
  apply NoDup_app in Hnodup as (_ & _ & Hafter).
  apply NoDup_cons in Hafter as [Hafter _].
  rewrite copyHeaders_app, copyHeaders_cons.
  rewrite copyHeaders_untouched.
  - rewrite copyHeader_lookup.
    assert (bool_decide (key = "host")
            && bool_decide (sessionProtocol session = http2) = false) as ->.
    { destruct Hproto as [->|[Hhost _]].
      - by rewrite andb_false_r.
      - by rewrite (bool_decide_false (key = "host")). }
    rewrite (bool_decide_false (key = HTTP2_HEADER_COOKIE)) by done.
    rewrite (bool_decide_false (key = "__proto__")) by done.
    by rewrite bool_decide_true.
  - intros k v Hkv. split.
    + intros ->. apply Hafter. apply list_elem_of_fmap. by exists (key, v).
    + intros (-> & Hp & ->). destruct Hproto as [Hp1|[_ Hauth]]; congruence.
Qed.

(** The copy loop makes no property of the name [__proto__]. *)
Lemma copyHeaders_lookup_proto session (headers : Headers)
    (toSend : gmap string string) :
  copyHeaders session headers toSend !! "__proto__" = toSend !! "__proto__".
Proof.
  revert toSend. induction headers as [|[key val] rest IH];
    intros toSend; [done|].
  rewrite copyHeaders_cons, IH, copyHeader_lookup.
  rewrite (bool_decide_false ("__proto__" = HTTP2_HEADER_AUTHORITY)) by done.
  destruct (_ && _); [done|].
  destruct (bool_decide (key = HTTP2_HEADER_COOKIE)); [done|].
  case_bool_decide as Hp; [done|].
  by rewrite bool_decide_false by congruence.
Qed.

(** X14: a header the request brings is sent as it is, under its own name,
    and wins over what the engine would put there (the defaults accept,
    user-agent and accept-encoding, the inferred content-length and
    content-type): this holds for every header but cookie, [__proto__] and,
    under HTTP/2, host and :authority, when the request names each header
    once.  A header of the name [__proto__] is never sent: the assignment
    of line 131 makes no property of that name. *)
Theorem request_headers_are_sent_verbatim session request parts jarCookies
    (key val : string) :
  NoDup (headers request).*1 →
  (key, val) ∈ headers request →
  key ≠ HTTP2_HEADER_COOKIE →
  key ≠ "__proto__" →
  sessionProtocol session = http1
  ∨ (key ≠ "host" ∧ key ≠ HTTP2_HEADER_AUTHORITY) →
  assembleHeaders session request parts jarCookies !! key = Some val
  ∧ (key = HTTP2_HEADER_ACCEPT_ENCODING →
     val ≠ acceptEncoding (contentDecoders session) →
     assembleHeaders session request parts jarCookies
       !! HTTP2_HEADER_ACCEPT_ENCODING
     ≠ Some (acceptEncoding (contentDecoders session)))
  ∧ assembleHeaders session request parts jarCookies !! "__proto__" = None.
Proof.
  intros Hnodup Hin Hcookie Hplain Hproto.
  assert (assembleHeaders session request parts jarCookies !! key = Some val)
    as Hsent.
  { unfold assembleHeaders.
    rewrite withBodyFraming_lookup_explicit by (by eapply elem_has).
    by apply copyHeaders_verbatim. }
  split_and!; [done| |].
  - intros -> Hother. rewrite Hsent. congruence.
  - unfold assembleHeaders.
    rewrite withBodyFraming_lookup by done.
    rewrite copyHeaders_lookup_proto.
    rewrite withCookies_lookup_other by done.
    apply initialHeaders_lookup_other.
    repeat (apply not_elem_of_cons; split; [done|]); apply not_elem_of_nil.
Qed.

(** X15: the host header becomes the :authority pseudo-header under HTTP/2
    and stays the host header under HTTP/1: for a request that names host
    once and brings no :authority header of its own, the headers assembled
    under HTTP/2 have :authority with the host's value and no host header
    at all, and those assembled under HTTP/1 have the host header and no
    :authority. *)
Theorem host_becomes_authority session request parts jarCookies
    (val : string) :
  NoDup (headers request).*1 →
  ("host", val) ∈ headers request →
  get (headers request) HTTP2_HEADER_AUTHORITY = None →
  let assembled := assembleHeaders session request parts jarCookies in
  match sessionProtocol session with
  | http2 =>
      assembled !! HTTP2_HEADER_AUTHORITY = Some val
      ∧ assembled !! "host" = None
  | http1 =>
      assembled !! "host" = Some val
      ∧ assembled !! HTTP2_HEADER_AUTHORITY = None
  end.
Proof.
  intros Hnodup Hin Hauth assembled. subst assembled.
  destruct (sessionProtocol session) eqn:Hproto.
  - unfold assembleHeaders. split.
    + rewrite withBodyFraming_lookup by done.
      apply copyHeaders_verbatim; auto; done.
    + rewrite withBodyFraming_lookup by done.
      rewrite copyHeaders_untouched.
      * rewrite withCookies_lookup_other by done.
        apply initialHeaders_lookup_other.
        apply not_elem_of_cons; split; [done|].
        repeat (apply not_elem_of_cons; split; [done|]).
        apply not_elem_of_nil.
      * intros k v Hkv. split.
        -- intros ->. by apply get_None_not_elem with (val := v) in Hauth.
        -- intros (_ & Hp & _). congruence.
  - unfold assembleHeaders. split.
    + rewrite withBodyFraming_lookup by done.
      apply list_elem_of_split in Hin as (before & after & Hsplit).
      assert (∀ v, (HTTP2_HEADER_AUTHORITY, v) ∉ after) as Hnoauth.
      { intros v Hv. apply (get_None_not_elem _ _ v) in Hauth.
        apply Hauth. rewrite Hsplit. set_solver. }
      rewrite Hsplit in Hnodup |- *.
      rewrite fmap_app, fmap_cons in Hnodup. simpl in Hnodup.
      apply NoDup_app in Hnodup as (_ & _ & Hafter).
      apply NoDup_cons in Hafter as [Hafter _].
      rewrite copyHeaders_app, copyHeaders_cons.
      rewrite copyHeaders_untouched.
      * rewrite copyHeader_lookup, Hproto.
        rewrite !bool_decide_true by done. done.
      * intros k v Hkv. split.
        -- intros ->. by apply (Hnoauth v).
        -- intros (-> & _ & _). apply Hafter.
           apply list_elem_of_fmap. by exists ("host", v).
    + rewrite withBodyFraming_lookup by done.
      assert (∀ toSend : gmap string string,
                copyHeaders session (headers request) toSend !! "host"
                = toSend !! "host") as Hhost.
      { generalize (headers request). intros hs.
        induction hs as [|[k v] rest IH]; intros toSend; [done|].
        rewrite copyHeaders_cons, IH, copyHeader_lookup, Hproto.
        rewrite (bool_decide_true (http2 = http2)) by done.
        rewrite andb_true_r.
        case_bool_decide as Hk; [done|].
        by repeat (case_bool_decide; [done|]). }
      rewrite Hhost, withCookies_lookup_other by done.
      apply initialHeaders_lookup_other.
      repeat (apply not_elem_of_cons; split; [done|]).
      apply not_elem_of_nil.
Qed.

(** X16: the pseudo-headers :method, :scheme and :path are sent under
    HTTP/2 only: for a request that brings no header of these names, the
    headers assembled under HTTP/2 carry the request's method, the URL's
    protocol up to its colon, and the URL's path, query and fragment put
    together, and those assembled under HTTP/1 carry none of the three. *)
Theorem pseudo_headers_only_under_http2 session request parts jarCookies :
  get (headers request) HTTP2_HEADER_METHOD = None →
  get (headers request) HTTP2_HEADER_SCHEME = None →
  get (headers request) HTTP2_HEADER_PATH = None →
  let assembled := assembleHeaders session request parts jarCookies in
  match sessionProtocol session with
  | http2 =>
      assembled !! HTTP2_HEADER_METHOD = Some (method request)
      ∧ assembled !! HTTP2_HEADER_SCHEME
        = Some (stripFromColon (protocol parts))
      ∧ assembled !! HTTP2_HEADER_PATH
        = Some (pathname parts +:+ search parts +:+ hash parts)
  | http1 =>
      assembled !! HTTP2_HEADER_METHOD = None
      ∧ assembled !! HTTP2_HEADER_SCHEME = None
      ∧ assembled !! HTTP2_HEADER_PATH = None
  end.
Proof.
  intros Hmethod Hscheme Hpath assembled. subst assembled.
  unfold assembleHeaders.
  rewrite !withBodyFraming_lookup by done.
  rewrite !copyHeaders_lookup_absent by done.
  rewrite !withCookies_lookup_other by done.
  unfold initialHeaders.
  destruct (sessionProtocol session);
    split_and!; rewrite ?lookup_insert_ne by done;
    by rewrite ?lookup_insert_eq.
Qed.

(** X17: content-length and content-type are inferred from the body only
    for a request that is neither GET nor HEAD and only when the request
    does not bring the header itself: then content-length is the body's
    length in decimal when the length is known, and content-type is the
    body's mime type when it has a non-empty one; a GET or HEAD request gets
    neither. *)
Theorem body_framing_is_inferred_for_bodies_only session request parts
    jarCookies :
  get (headers request) HTTP2_HEADER_CONTENT_LENGTH = None →
  get (headers request) HTTP2_HEADER_CONTENT_TYPE = None →
  let assembled := assembleHeaders session request parts jarCookies in
  (method request = "GET" ∨ method request = "HEAD" →
   assembled !! HTTP2_HEADER_CONTENT_LENGTH = None
   ∧ assembled !! HTTP2_HEADER_CONTENT_TYPE = None)
  ∧ (method request ≠ "GET" ∧ method request ≠ "HEAD" →
     assembled !! HTTP2_HEADER_CONTENT_LENGTH
     = pretty <$> bodyLength request
     ∧ assembled !! HTTP2_HEADER_CONTENT_TYPE
       = (if truthyStr (bodyMime request) then bodyMime request else None)).
Proof.
  intros Hlength Htype assembled. subst assembled.
  assert (∀ key,
    key = HTTP2_HEADER_CONTENT_LENGTH ∨ key = HTTP2_HEADER_CONTENT_TYPE →
    copyHeaders session (headers request)
      (withCookies (cookieList jarCookies (headers request))
         (initialHeaders session (method request) parts
            (acceptEncoding (contentDecoders session)))) !! key = None)
    as Hbefore.
  { intros key Hkey.
    rewrite copyHeaders_lookup_absent by (by destruct Hkey as [-> | ->]).
    rewrite withCookies_lookup_other by (by destruct Hkey as [-> | ->]).
    apply initialHeaders_lookup_other.
    destruct Hkey as [-> | ->];
      repeat (apply not_elem_of_cons; split; [done|]);
      apply not_elem_of_nil. }
  pose proof (proj1 (get_None_has _ _) Hlength) as Hhaslength.
  pose proof (proj1 (get_None_has _ _) Htype) as Hhastype.
  unfold HTTP2_HEADER_CONTENT_TYPE in Hhastype.
  unfold assembleHeaders, withBodyFraming.
  rewrite Hhaslength, Hhastype. split.
  - intros Hmethod. apply isEndStream_true in Hmethod. rewrite Hmethod.
    simpl. split; apply Hbefore; auto.
  - intros Hmethod. apply isEndStream_false in Hmethod. rewrite Hmethod.
    simpl. rewrite !andb_true_r. split.
    + destruct (bodyMime request) as [mime|] eqn:Hmime; simpl.
      * destruct (negb (bool_decide (mime = ""))).
        -- rewrite lookup_insert_ne by done.
           destruct (bodyLength request); simpl.
           ++ by rewrite lookup_insert_eq.
           ++ apply Hbefore; auto.
        -- destruct (bodyLength request); simpl.
           ++ by rewrite lookup_insert_eq.
           ++ apply Hbefore; auto.
      * destruct (bodyLength request); simpl.
        -- by rewrite lookup_insert_eq.
        -- apply Hbefore; auto.
    + destruct (bodyMime request) as [mime|] eqn:Hmime; simpl.
      * destruct (negb (bool_decide (mime = ""))).
        -- by rewrite lookup_insert_eq.
        -- destruct (bodyLength request); simpl;
             rewrite ?lookup_insert_ne by done; apply Hbefore; auto.
      * destruct (bodyLength request); simpl;
          rewrite ?lookup_insert_ne by done; apply Hbefore; auto.
Qed.

(* ===================================================================== *)
(** * The GOAWAY mark *)
(* ===================================================================== *)

(** X20: a session reads as having got GOAWAY exactly from the moment
    [setGotGoaway] marked it: a session without the mark reads false, a
    marked one reads true whatever the property held before, marking again
    changes nothing, and no other property of the session is touched. *)
Theorem goaway_mark_sticks (session : gmap string JsValue) :
  hasGotGoaway (setGotGoaway session) = true
  ∧ setGotGoaway (setGotGoaway session) = setGotGoaway session
  ∧ (∀ key, key ≠ "__fetch_h2_goaway" →
            property (setGotGoaway session) key = property session key)
  ∧ (session !! "__fetch_h2_goaway" = None → hasGotGoaway session = false).
Proof.
  unfold hasGotGoaway, setGotGoaway, property. split_and!.
  - by rewrite lookup_insert_eq.
  - apply insert_insert_eq.
  - intros key Hkey. by rewrite lookup_insert_ne.
  - by intros ->.
Qed.

(* ===================================================================== *)
(** * The engine on concrete chains *)
(* ===================================================================== *)

Import Demo.
Import DemoMore.

(** C1 (what the code does at the failing input): the server sends [A] to
    [B] and [B] back to [A].  When the third attempt is about to visit [A],
    the list of visited URLs is [[A; B]] and holds [A] already, yet the
    loop check passes, and the request to [A] is sent a second time; the
    redirection-loop error, carrying [[A; B]], is only raised by the fourth
    attempt. *)
Theorem revisit_is_sent_before_the_loop_is_detected :
  (∃ w,
     chain (take 2 pingPong) session1 (getRequest A follow) noInit
       firstExtra emptyWorld
     = Some (getRequest A follow, noInit,
             {| redirected := [A; B]; timeoutAt := None |}, w)
     ∧ sentUrls (effects w) = [A; B])
  ∧ A ∈ [A; B]
  ∧ ensureNotCircularRedirection [A; B] = Normal tt
  ∧ sentUrls
      (effects (fetch (take 3 pingPong) session1 (getRequest A follow)
                  noInit emptyWorld).2)
    = [A; B; A]
  ∧ (fetch pingPong session1 (getRequest A follow) noInit emptyWorld).1
    = Rejected (ERedirectionLoop [A; B])
  ∧ sentUrls
      (effects (fetch pingPong session1 (getRequest A follow) noInit
                  emptyWorld).2)
    = [A; B; A].
Proof.
  split_and!.
  - eexists. split; [vm_compute; reflexivity|]. vm_compute. reflexivity.
  - set_solver.
  - vm_compute. reflexivity.
  - vm_compute. reflexivity.
  - vm_compute. reflexivity.
  - vm_compute. reflexivity.
Qed.


Lemma follow_redirect_by_method_witness :
  (fetchImpl [answered 0 (redirectTo B)] session1 (postRequest A follow)
     noInit firstExtra emptyWorld).1
  = Rejected (ERedirectionMethod (Some B) "POST")
  ∧ ∃ w4,
      nextAttempt (answered 0 (redirectTo B)) session1 (getRequest A follow)
        noInit firstExtra emptyWorld
      = Some (getRequest B follow, noInit,
              {| redirected := [A]; timeoutAt := None |}, w4).
Proof.
  split.
  - edestruct (follow_redirect_by_method (answered 0 (redirectTo B)) []
                 session1 (postRequest A follow) noInit firstExtra
                 emptyWorld) as [Hpost _].
    + vm_compute. reflexivity.
    + reflexivity.
    + reflexivity.
    + reflexivity.
    + vm_compute. reflexivity.
    + vm_compute. reflexivity.
    + discriminate.
    + rewrite Hpost; [reflexivity|]. split; discriminate.
  - edestruct (follow_redirect_by_method (answered 0 (redirectTo B)) []
                 session1 (getRequest A follow) noInit firstExtra
                 emptyWorld) as [_ Hget].
    + vm_compute. reflexivity.
    + reflexivity.
    + reflexivity.
    + reflexivity.
    + vm_compute. reflexivity.
    + vm_compute. reflexivity.
    + discriminate.
    + destruct Hget as (_ & _ & Hnext & _); [by left|].
      eexists. exact Hnext.
Defined.

Lemma redirected_flag_witness :
  ∃ r wEnd,
    fetch [answered 0 (redirectTo B); answered 1 ok] session1
      (getRequest A follow) noInit emptyWorld
    = (Resolved (Streamed r), wEnd)
    ∧ responseUrl r = B
    ∧ responseRedirected r = true
    ∧ ∃ pre hop post request' init' extra' w',
        [answered 0 (redirectTo B); answered 1 ok] = pre ++ hop :: post
        ∧ chain pre session1 (getRequest A follow) noInit firstExtra
            emptyWorld
          = Some (request', init', extra', w')
        ∧ (responseRedirected r = true ↔ pre ≠ []).
Proof.
  eexists _, _. split; [vm_compute; reflexivity|].
  split; [reflexivity|]. split; [reflexivity|].
  edestruct (redirected_flag [answered 0 (redirectTo B); answered 1 ok]
               session1 (getRequest A follow) noInit firstExtra emptyWorld)
    as (pre & hop & post & request' & init' & extra' & w' & Hscript
        & Hchain & _ & _ & _ & _ & Hfirst).
  - vm_compute. reflexivity.
  - exists pre, hop, post, request', init', extra', w'.
    split; [exact Hscript|]. split; [exact Hchain|].
    apply Hfirst; [discriminate|reflexivity].
Defined.

Lemma cookie_header_merge_witness :
  ∃ setup w1,
    setupFetch (answered 0 ok) session1 cookieRequest noInit firstExtra
      cookieWorld
    = (Normal setup, w1)
    ∧ headersToSend setup !! "cookie" = Some "foo=bar; x=1".
Proof.
  eexists _, _. split; [vm_compute; reflexivity|].
  erewrite (cookie_header_merge (answered 0 ok) session1 cookieRequest
              noInit firstExtra cookieWorld).
  - vm_compute. reflexivity.
  - vm_compute. reflexivity.
Defined.

(** C7 (as stated, it fails): a response that sets a cookie and is read
    when the signal is aborted is dropped by the guard of line 114, the
    call is rejected, and the cookie never reaches the jar; and so for a
    response that sets a cookie and whose location header cannot be
    resolved. *)
Lemma cookies_of_a_response_can_be_lost :
  resHeaders withCookie !! "set-cookie" = Some (HArr ["foo=bar"])
  ∧ (fetch [answeredTooLate withCookie] session1 (getRequest A follow)
       signalInit emptyWorld).1
    = Rejected ESignalAborted
  ∧ jar (fetch [answeredTooLate withCookie] session1 (getRequest A follow)
           signalInit emptyWorld).2
    = []
  ∧ resHeaders badLocation !! "set-cookie" = Some (HArr ["foo=bar"])
  ∧ onResponse session1 (getRequest A follow) noInit firstExtra
      {| endStream := true; headersToSend := ∅; setupTimeoutAt := None;
         timeoutInfo := None; signalPromise := false |}
      badLocation false emptyWorld
    = (Reject EInvalidUrl, emptyWorld)
  ∧ (fetch [answered 0 badLocation] session1 (getRequest A follow) noInit
       emptyWorld).1
    = Rejected EInvalidUrl
  ∧ jar (fetch [answered 0 badLocation] session1 (getRequest A follow)
           noInit emptyWorld).2
    = []
  ∧ setCookies ["foo=bar"] A (jar emptyWorld) ≠ [].
Proof.
  split_and!; [vm_compute; reflexivity..|]. vm_compute. discriminate.
Qed.

Lemma cookies_stored_before_policy_witness :
  ∃ outcome w1 r,
    onResponse session1 (getRequest A follow) noInit firstExtra
      {| endStream := true; headersToSend := ∅; setupTimeoutAt := None;
         timeoutInfo := None; signalPromise := false |}
      withCookie false emptyWorld
    = (outcome, w1)
    ∧ outcome = Resolve (Streamed r)
    ∧ jar w1 = [("foo=bar", "http://a.example")]
    ∧ responseHeaders r !! "set-cookie" = None
    ∧ responseHeaders r !! "set-cookie2" = None
    ∧ responseHeaders r !! "content-type" = Some (HStr "text/plain").
Proof.
  edestruct (cookies_stored_before_policy session1 (getRequest A follow)
               noInit firstExtra
               {| endStream := true; headersToSend := ∅;
                  setupTimeoutAt := None; timeoutInfo := None;
                  signalPromise := false |}
               withCookie false emptyWorld None)
    as (outcome & w1 & Hhandled & Hpolicy & _ & _ & Hstored & Hstripped).
  - reflexivity.
  - vm_compute. reflexivity.
  - vm_compute in Hpolicy.
    match type of Hpolicy with
    | _ = Resolve (Streamed ?r0) => exists outcome, w1, r0
    end.
    destruct (Hstripped _ Hpolicy) as (Hone & Htwo & Hothers).
    split_and!; [exact Hhandled|exact Hpolicy| |exact Hone|exact Htwo|].
    + rewrite Hstored. vm_compute. reflexivity.
    + rewrite (Hothers "content-type"); [|discriminate|discriminate].
      vm_compute. reflexivity.
Defined.

(** C8 (as stated, it fails): with the deadline reached and the signal
    already aborted, setupFetch fails with the [TimeoutError] of the
    deadline, not with an [AbortError]. *)
Lemma timeout_wins_over_abort :
  signal signalInit = true
  ∧ abortedAtSetup lateAndAborted = true
  ∧ setupFetch lateAndAborted session1 (getRequest A follow) signalInit
      {| redirected := []; timeoutAt := Some 5%Z |} emptyWorld
    = (Throw EDeadline, emptyWorld)
  ∧ fetchImpl [lateAndAborted] session1 (getRequest A follow) signalInit
      {| redirected := []; timeoutAt := Some 5%Z |} emptyWorld
    = (Rejected EDeadline, emptyWorld)
  ∧ errorKind EDeadline ≠ AbortError.
Proof.
  split_and!; [vm_compute; reflexivity..|]. discriminate.
Qed.

Lemma setup_fails_before_sending_witness :
  fetchImpl [answered 10 ok] session1 (getRequest A follow) noInit
    {| redirected := []; timeoutAt := Some 5%Z |} emptyWorld
  = (Rejected EDeadline, emptyWorld)
  ∧ ∃ w1,
      fetchImpl [lateAndAborted] session1 (getRequest A follow) signalInit
        firstExtra emptyWorld
      = (Rejected ESignalAborted, w1)
      ∧ sentUrls (effects w1) = []
      ∧ racesStarted (effects w1) = [].
Proof.
  split.
  - edestruct (setup_fails_before_sending (answered 10 ok) [] session1
                 (getRequest A follow) noInit
                 {| redirected := []; timeoutAt := Some 5%Z |} emptyWorld)
      as [Hlate _].
    + reflexivity.
    + vm_compute. reflexivity.
    + destruct (Hlate 5%Z) as (_ & Hrun & _);
        [reflexivity|lia|simpl; lia|exact Hrun].
  - edestruct (setup_fails_before_sending lateAndAborted [] session1
                 (getRequest A follow) signalInit firstExtra emptyWorld)
      as [_ Haborted].
    + reflexivity.
    + vm_compute. reflexivity.
    + destruct Haborted as (w1 & _ & Hrun & _ & Hsent & Hraces & _);
        [reflexivity|reflexivity|intros T; discriminate|].
      exists w1. split_and!; [exact Hrun|exact Hsent|exact Hraces].
Defined.

(** C10 (as stated, it fails): a redirect whose location header occurred
    twice is not rejected: the handler reads the first location, and under
    the policy [follow] the redirect is followed there. *)
Lemma repeated_location_is_followed :
  isRedirectStatus 302 = true
  ∧ fieldValues "location" (rawHeaders twoLocations) = [B; C]
  ∧ resHeaders twoLocations !! "location" = Some (HStr B)
  ∧ (∃ w4,
       nextAttempt (answered 0 twoLocations) session1 (getRequest A follow)
         noInit firstExtra emptyWorld
       = Some (getRequest B follow, noInit,
               {| redirected := [A]; timeoutAt := None |}, w4))
  ∧ (fetch [answered 0 twoLocations; answered 1 ok] session1
       (getRequest A follow) noInit emptyWorld).1
    ≠ Rejected makeIllegalRedirectError
  ∧ (∃ r,
       (fetch [answered 0 twoLocations; answered 1 ok] session1
          (getRequest A follow) noInit emptyWorld).1
       = Resolved (Streamed r)
       ∧ responseUrl r = B)
  ∧ sentUrls
      (effects (fetch [answered 0 twoLocations; answered 1 ok] session1
                  (getRequest A follow) noInit emptyWorld).2)
    = [A; B].
Proof.
  split_and!; try (vm_compute; reflexivity).
  - eexists. vm_compute. reflexivity.
  - vm_compute. discriminate.
  - eexists. split; vm_compute; reflexivity.
Qed.

(** Cleaning up twice after an attempt whose timer is pending and whose
    listener is attached: one cancellation, one detachment. *)
Example cleanup_twice :
  effects (cleanup (Some {| timerId := Some 0 |}) true
             (cleanup (Some {| timerId := Some 0 |}) true armedWorld))
  = [TimerArmed 0 10; ListenerAttached; TimerCancelled 0; ListenerDetached].
Proof. vm_compute. reflexivity. Qed.

(** A cookie set by one response is sent with the next request to the same
    origin, and the caller never sees the set-cookie header. *)
Example cookie_round_trip :
  ∃ r w1 setup w2,
    fetch [answered 0 withCookie] session1 (getRequest A follow) noInit
      emptyWorld
    = (Resolved (Streamed r), w1)
    ∧ responseHeaders r !! "set-cookie" = None
    ∧ setupFetch (answered 1 ok) session1 (getRequest B follow) noInit
        firstExtra w1
      = (Normal setup, w2)
    ∧ headersToSend setup !! "cookie" = Some "foo=bar".
Proof.
  eexists _, _, _, _. split_and!; vm_compute; reflexivity.
Qed.

(* ===================================================================== *)
(** * More of the engine on concrete inputs *)
(* ===================================================================== *)

Lemma visited_list_is_the_requests_sent_witness :
  ∃ request' init' extra' w',
    chain [answered 0 (redirectTo B); answered 1 (redirectTo C)] session1
      (getRequest A follow) noInit firstExtra emptyWorld
    = Some (request', init', extra', w')
    ∧ redirected extra' = [A; B]
    ∧ sentUrls (effects w') = [A; B]
    ∧ url request' = C.
Proof.
  eexists _, _, _, _. split; [vm_compute; reflexivity|].
  edestruct (visited_list_is_the_requests_sent
               [answered 0 (redirectTo B); answered 1 (redirectTo C)]
               session1 (getRequest A follow) noInit firstExtra emptyWorld)
    as (visited & _ & Hvisited & Hsent & _).
  - vm_compute. reflexivity.
  - split_and!; vm_compute; reflexivity.
Defined.

Lemma redirect_followed_only_when_witness :
  ∃ request' init' extra' w',
    nextAttempt (answered 0 (redirectTo B)) session1 (getRequest A follow)
      noInit firstExtra emptyWorld
    = Some (request', init', extra', w')
    ∧ redirect (getRequest A follow) = follow
    ∧ url request' = B
    ∧ sentUrls (effects w') = [A].
Proof.
  eexists _, _, _, _. split; [vm_compute; reflexivity|].
  edestruct (redirect_followed_only_when (answered 0 (redirectTo B))
               session1 (getRequest A follow) noInit firstExtra emptyWorld)
    as (Hfollow & _ & _ & Hsent & _ & res & location & _ & _ & _ & _ & Hurl).
  - vm_compute. reflexivity.
  - split_and!; [exact Hfollow|reflexivity|exact Hsent].
Defined.

Lemma loop_error_names_the_cycle_witness :
  ∃ wEnd before current rest,
    fetch pingPong session1 (getRequest A follow) noInit emptyWorld
    = (Rejected (ERedirectionLoop [A; B]), wEnd)
    ∧ sentUrls (effects wEnd)
      = sentUrls (effects emptyWorld) ++ before ++ current :: rest ++ [current]
    ∧ [A; B] = current :: rest.
Proof.
  eexists. 
  edestruct (loop_error_names_the_cycle pingPong session1
               (getRequest A follow) noInit emptyWorld [A; B])
    as (before & current & rest & Hsent & _ & Hurls & _).
  - vm_compute. reflexivity.
  - exists before, current, rest. split; [reflexivity|].
    split; [exact Hsent|exact Hurls].
Defined.

Lemma redirect_under_error_policy_witness :
  ∃ wEnd,
    fetchImpl [answered 0 (redirectTo B); answered 1 ok] session1
      (getRequest A error) noInit firstExtra emptyWorld
    = (Rejected (ERedirection (Some B)), wEnd)
    ∧ sentUrls (effects wEnd) = sentUrls (effects emptyWorld) ++ [A].
Proof.
  edestruct (redirect_under_error_policy (answered 0 (redirectTo B))
               [answered 1 ok] session1 (getRequest A error) noInit
               firstExtra emptyWorld)
    as (wEnd & Hrun & _ & Hsent & _).
  - vm_compute. reflexivity.
  - reflexivity.
  - reflexivity.
  - reflexivity.
  - vm_compute. reflexivity.
  - vm_compute. reflexivity.
  - discriminate.
  - exists wEnd. split; [exact Hrun|exact Hsent].
Defined.

Lemma terminal_response_witness :
  ∃ r wEnd,
    fetchImpl [answered 0 (redirectTo B); answered 1 ok] session1
      (getRequest A manual) noInit firstExtra emptyWorld
    = (Resolved (Streamed r), wEnd)
    ∧ responseStatus r = 302%Z
    ∧ responseUrl r = A
    ∧ responseHeaders r !! "location" = Some (HStr B)
    ∧ sentUrls (effects wEnd) = sentUrls (effects emptyWorld) ++ [A].
Proof.
  edestruct (terminal_response (answered 0 (redirectTo B)) [answered 1 ok]
               session1 (getRequest A manual) noInit firstExtra emptyWorld)
    as (r & wEnd & Hrun & Hstatus & _ & Hurl & _ & _ & _ & _ & Hloc & Hsent).
  - vm_compute. reflexivity.
  - reflexivity.
  - reflexivity.
  - vm_compute. reflexivity.
  - right. split; reflexivity.
  - exists r, wEnd. split_and!; [exact Hrun|exact Hstatus|exact Hurl| |exact Hsent].
    etrans; [exact Hloc|]. vm_compute. reflexivity.
Defined.

Lemma other_events_settle_at_once_witness :
  ∃ wEnd,
    fetchImpl [settledBy 0 OnContinue; answered 1 ok] session1
      (getRequest A follow) noInit firstExtra emptyWorld
    = (Rejected E100Continue, wEnd)
    ∧ jar wEnd = jar emptyWorld
    ∧ sentUrls (effects wEnd) = sentUrls (effects emptyWorld) ++ [A].
Proof.
  edestruct (other_events_settle_at_once (settledBy 0 OnContinue)
               [answered 1 ok] session1 (getRequest A follow) noInit
               firstExtra emptyWorld)
    as (settled & wEnd & Hrun & -> & _ & _ & _ & _ & Hjar & Hsent).
  - vm_compute. reflexivity.
  - reflexivity.
  - discriminate.
  - exists wEnd. split_and!; [exact Hrun|exact Hjar|exact Hsent].
Defined.

Lemma settled_call_has_released_its_resources_witness :
  ∃ settled w',
    fetchImpl [answered 0 (redirectTo B); answered 4 ok] session1
      (getRequest A follow) timedInit firstExtra emptyWorld
    = (settled, w')
    ∧ settled ≠ Pending
    ∧ timers w' = [Cleared; Cleared]
    ∧ (∀ i, timers w' !! i ≠ Some Armed)
    ∧ onabort w' = false.
Proof.
  eexists _, _. split; [vm_compute; reflexivity|].
  split; [discriminate|]. split; [reflexivity|].
  edestruct (settled_call_has_released_its_resources
               [answered 0 (redirectTo B); answered 4 ok] session1
               (getRequest A follow) timedInit firstExtra emptyWorld)
    as (Hlistener & Htimers).
  - vm_compute. reflexivity.
  - discriminate.
  - split.
    + apply Htimers.
      * left. reflexivity.
      * intros hop Hhop.
        apply elem_of_cons in Hhop as [->|Hhop]; [reflexivity|].
        apply elem_of_cons in Hhop as [->|Hhop]; [reflexivity|].
        by apply elem_of_nil in Hhop.
      * intros i. by destruct i.
    + reflexivity.
Defined.

(** The timer of the first attempt fires while the attempt that follows
    its redirect waits for its response: the call is rejected with the
    deadline's error, and the timer of the second attempt is still armed. *)
Example outer_timer_fires_first :
  (fetchImpl [overtaken 0 (redirectTo B); waiting 4] session1
     (getRequest A follow) timedInit firstExtra emptyWorld).1
  = Rejected EDeadline
  ∧ timers (fetchImpl [overtaken 0 (redirectTo B); waiting 4] session1
              (getRequest A follow) timedInit firstExtra emptyWorld).2
    = [Fired; Armed]
  ∧ sentUrls
      (effects (fetchImpl [overtaken 0 (redirectTo B); waiting 4] session1
                  (getRequest A follow) timedInit firstExtra emptyWorld).2)
    = [A; B].
Proof. split_and!; vm_compute; reflexivity. Qed.

Lemma without_timeout_no_timer_witness :
  ∃ settled w',
    fetchImpl [answered 0 (redirectTo B); answered 4 ok] session1
      (getRequest A follow) noInit firstExtra emptyWorld
    = (settled, w')
    ∧ timers w' = timers emptyWorld
    ∧ settled ≠ Rejected EDeadline.
Proof.
  eexists _, _. split; [vm_compute; reflexivity|].
  eapply (without_timeout_no_timer
            [answered 0 (redirectTo B); answered 4 ok] session1
            (getRequest A follow) noInit firstExtra emptyWorld).
  - reflexivity.
  - reflexivity.
  - vm_compute. reflexivity.
Defined.

Lemma without_signal_no_abort_witness :
  ∃ settled w',
    fetchImpl [answered 0 (redirectTo B); answeredTooLate ok] session1
      (getRequest A follow) noInit firstExtra armedWorld
    = (settled, w')
    ∧ onabort w' = onabort armedWorld
    ∧ settled ≠ Rejected ESignalAborted.
Proof.
  eexists _, _. split; [vm_compute; reflexivity|].
  eapply (without_signal_no_abort
            [answered 0 (redirectTo B); answeredTooLate ok] session1
            (getRequest A follow) noInit firstExtra armedWorld).
  - reflexivity.
  - vm_compute. reflexivity.
Defined.

Lemma jar_changes_only_by_set_cookie_witness :
  ∃ settled w',
    fetchImpl [answered 0 (redirectTo B); answered 1 ok] session1
      (getRequest A follow) noInit firstExtra cookieWorld
    = (settled, w')
    ∧ jar w' = jar cookieWorld.
Proof.
  eexists _, _. split; [vm_compute; reflexivity|].
  eapply (jar_changes_only_by_set_cookie
            [answered 0 (redirectTo B); answered 1 ok] session1
            (getRequest A follow) noInit firstExtra cookieWorld).
  - intros hop res Hhop Hwinner.
    apply elem_of_cons in Hhop as [->|Hhop];
      [|apply elem_of_cons in Hhop as [->|Hhop];
        [|by apply elem_of_nil in Hhop]];
      injection Hwinner as <-; vm_compute; reflexivity.
  - vm_compute. reflexivity.
Defined.

Lemma redirect_cookies_reach_the_next_request_witness :
  ∃ request' init' extra' w' setup2 w2,
    nextAttempt (answered 0 redirectWithCookie) session1
      (getRequest A follow) noInit firstExtra emptyWorld
    = Some (request', init', extra', w')
    ∧ setupFetch (answered 1 ok) session1 request' init' extra' w'
      = (Normal setup2, w2)
    ∧ headersToSend setup2 !! "cookie" = Some "sid=1".
Proof.
  eexists _, _, _, _, _, _. split; [vm_compute; reflexivity|].
  split; [vm_compute; reflexivity|].
  edestruct (redirect_cookies_reach_the_next_request
               (answered 0 redirectWithCookie) (answered 1 ok) session1
               (getRequest A follow) noInit firstExtra emptyWorld)
    as (res & Hwinner & _ & Hcookie).
  - vm_compute. reflexivity.
  - vm_compute. reflexivity.
  - etrans; [exact Hcookie|]. injection Hwinner as <-. vm_compute. reflexivity.
Defined.

Lemma non_positive_timeout_fails_at_once_witness :
  fetchImpl [answered 5 ok] session1 (getRequest A follow) zeroTimeout
    firstExtra emptyWorld
  = (Rejected EDeadline, emptyWorld).
Proof.
  eapply (non_positive_timeout_fails_at_once (answered 5 ok) [] session1
            (getRequest A follow) zeroTimeout firstExtra emptyWorld 0).
  - reflexivity.
  - reflexivity.
  - lia.
  - simpl. lia.
  - simpl. lia.
  - reflexivity.
  - vm_compute. eexists. reflexivity.
Defined.

Lemma late_response_is_ignored_witness :
  ∃ wEnd,
    fetchImpl [answeredTooLate redirectWithCookie; answered 1 ok] session1
      (getRequest A follow) signalInit firstExtra emptyWorld
    = (Rejected ESignalAborted, wEnd)
    ∧ jar wEnd = jar emptyWorld
    ∧ sentUrls (effects wEnd) = sentUrls (effects emptyWorld) ++ [A].
Proof.
  edestruct (late_response_is_ignored (answeredTooLate redirectWithCookie)
               [answered 1 ok] session1 (getRequest A follow) signalInit
               firstExtra emptyWorld)
    as (wEnd & Hrun & _ & Hjar & _ & Hsent).
  - vm_compute. reflexivity.
  - reflexivity.
  - reflexivity.
  - reflexivity.
  - exists wEnd. split_and!; [exact Hrun|exact Hjar|exact Hsent].
Defined.

Lemma unresolvable_location_rejects_witness :
  ∃ wEnd,
    fetchImpl [answered 0 badLocation] session1 (getRequest A manual)
      noInit firstExtra emptyWorld
    = (Rejected EInvalidUrl, wEnd)
    ∧ jar wEnd = jar emptyWorld.
Proof.
  edestruct (unresolvable_location_rejects (answered 0 badLocation) []
               session1 (getRequest A manual) noInit firstExtra emptyWorld)
    as (wEnd & Hrun & _ & Hjar & _).
  - vm_compute. reflexivity.
  - reflexivity.
  - reflexivity.
  - vm_compute. reflexivity.
  - vm_compute. reflexivity.
  - exists wEnd. split; [exact Hrun|exact Hjar].
Defined.

Lemma request_headers_are_sent_verbatim_witness :
  assembleHeaders session1 protoRequest partsOfA [] !! "accept"
  = Some "text/html"
  ∧ assembleHeaders session1 protoRequest partsOfA [] !! "__proto__" = None.
Proof.
  edestruct (request_headers_are_sent_verbatim session1 protoRequest
               partsOfA [] "accept" "text/html") as (Hsent & _ & Hproto).
  - apply (bool_decide_unpack _). vm_compute. reflexivity.
  - apply (bool_decide_unpack _). vm_compute. reflexivity.
  - discriminate.
  - discriminate.
  - left. reflexivity.
  - split; [exact Hsent|exact Hproto].
Defined.

Lemma host_becomes_authority_witness :
  assembleHeaders session2 hostRequest partsOfA [] !! ":authority"
  = Some "b.example"
  ∧ assembleHeaders session2 hostRequest partsOfA [] !! "host" = None.
Proof.
  apply (host_becomes_authority session2 hostRequest partsOfA [] "b.example").
  - apply (bool_decide_unpack _). vm_compute. reflexivity.
  - apply (bool_decide_unpack _). vm_compute. reflexivity.
  - reflexivity.
Defined.

Lemma pseudo_headers_only_under_http2_witness :
  assembleHeaders session2 hostRequest partsOfA [] !! ":method" = Some "GET"
  ∧ assembleHeaders session2 hostRequest partsOfA [] !! ":scheme"
    = Some "http"
  ∧ assembleHeaders session2 hostRequest partsOfA [] !! ":path"
    = Some "/one?q=1".
Proof.
  apply (pseudo_headers_only_under_http2 session2 hostRequest partsOfA []);
    reflexivity.
Defined.

Lemma body_framing_is_inferred_for_bodies_only_witness :
  assembleHeaders session1 jsonPost partsOfA [] !! "content-length"
  = Some "6"
  ∧ assembleHeaders session1 jsonPost partsOfA [] !! "content-type"
    = Some "application/json".
Proof.
  edestruct (body_framing_is_inferred_for_bodies_only session1 jsonPost
               partsOfA []) as [_ Hpost].
  - reflexivity.
  - reflexivity.
  - apply Hpost. split; discriminate.
Defined.
